(** * The contract executor of a table (clustering/table_contract/executor.cc)

    A shallow embedding of [contract_executor_t]: the derivation of execution
    keys from contracts, the reconciliation pass [update], the blocking
    teardown of [update_blocking] and the ack routing of [send_ack].

    The executor's members [executions] (a [std::map]) and [ack_map] (a
    [watchable_map_var_t]) are finite maps; the member functions are
    computations in a small state/failure/log monad: they thread the
    executor's state, fail where the C++ code would hit [guarantee], an
    out-of-range [std::map::at] or a null handle, and log every call made to
    a collaborator (executions, ack map, update pumper). *)

From stdpp Require Import gmap list fin_maps fin_sets.
From Stdlib Require Import ZArith.

#[local] Set Warnings "-clear-no-such-hyp".

(** ** Identifiers *)

(** Modelled from the spec: [uuid_u] and [nil_uuid()] are declared outside
    executor.cc.  Server, contract and branch identities are opaque
    identifiers with a nil value (the spec's "server identity ... or nil");
    an identifier is represented by its number, nil by zero.  The executor
    assigns [nil_uuid()] to both a server id and a branch id, so
    [server_id_t], [contract_id_t] and [branch_id_t] are all [uuid_u]. *)
Definition uuid_u : Type := N.
Definition nil_uuid : uuid_u := 0%N.

Bind Scope N_scope with uuid_u.

Abbreviation server_id_t := uuid_u (only parsing).
Abbreviation contract_id_t := uuid_u (only parsing).
Abbreviation branch_id_t := uuid_u (only parsing).

(** ** Contracts *)

(** Modelled from the spec: [contract_t] is declared outside executor.cc.
    A contract names "an optional primary server, a set of replica servers,
    and a branch identifier"; the executor reads them as
    [primary->server], [replicas] and [branch]. *)
Record primary_t : Type := { server : server_id_t }.

Record contract_t : Type := {
  replicas : gset server_id_t;
  primary : option primary_t;
  branch : branch_id_t
}.

(** ** Execution keys *)

(** Modelled from the spec: [execution_key_t] is declared in executor.hpp,
    which is not part of the sources at hand.  The spec gives the key as a
    (region, role, primary, branch) tuple with role one of Primary,
    Secondary, Erase; executor.cc assigns exactly these four fields. *)
Inductive role_t : Type := role_primary | role_secondary | role_erase.

#[global] Instance role_t_eq_dec : EqDecision role_t.
Proof. solve_decision. Defined.

Definition role_to_nat (r : role_t) : nat :=
  match r with role_primary => 0 | role_secondary => 1 | role_erase => 2 end.

Definition role_of_nat (n : nat) : option role_t :=
  match n with
  | 0 => Some role_primary
  | 1 => Some role_secondary
  | 2 => Some role_erase
  | _ => None
  end.

#[global] Program Instance role_t_countable : Countable role_t :=
  inj_countable role_to_nat role_of_nat _.
Next Obligation. by intros []. Qed.

Section execution_key.

(** [region_t] is declared outside executor.cc; it is part of a [std::map]
    key, so regions can be compared. *)
Context {region_t : Type} `{Countable region_t}.

Record execution_key_t : Type := {
  key_region : region_t;
  key_role : role_t;
  key_primary : server_id_t;
  key_branch : branch_id_t
}.

#[global] Instance execution_key_t_eq_dec : EqDecision execution_key_t.
Proof. solve_decision. Defined.

Definition key_to_tuple (k : execution_key_t) :
    region_t * role_t * server_id_t * branch_id_t :=
  (key_region k, key_role k, key_primary k, key_branch k).

Definition key_of_tuple (t : region_t * role_t * server_id_t * branch_id_t) :
    execution_key_t :=
  let '(r, ro, p, b) := t in
  {| key_region := r; key_role := ro; key_primary := p; key_branch := b |}.

#[global] Program Instance execution_key_t_countable :
    Countable execution_key_t :=
  inj_countable' key_to_tuple key_of_tuple _.
Next Obligation. by intros []. Qed.

End execution_key.

Arguments execution_key_t : clear implicits.

(** What the executor is constructed over and what it takes from other
    files: the overlap test on regions, its own [server_id], and the order
    in which a [std::set] of keys is iterated (the order of the
    key's [operator<]), which enumerates the set's elements. *)
Class executor_env (region_t : Type) `{Countable region_t} : Type := {
  region_overlaps : region_t → region_t → bool;
  server_id : server_id_t;
  iteration_order :
    gset (execution_key_t region_t) → list (execution_key_t region_t);
  iteration_order_perm : ∀ X, iteration_order X ≡ₚ elements X
}.

Section executor.

Context {region_t : Type} `{Countable region_t} `{!executor_env region_t}.

(** [contract_ack_t] is opaque to the executor. *)
Context {contract_ack_t : Type}.

Local Abbreviation key_t := (execution_key_t region_t).

(** An entry of [new_state.contracts], a map from contract ids to pairs of a
    region and a contract, and the entries of the map in the order in which
    the map is iterated. *)
Local Abbreviation new_pair_t := (contract_id_t * (region_t * contract_t))%type.
Local Abbreviation contracts_t := (list new_pair_t).

(** [contract_executor_t::get_contract_key].  [replicas.count(server_id) == 1]
    is membership in the [std::set]. *)
Definition get_contract_key (pair : region_t * contract_t) :
    execution_key_t region_t :=
  if match primary pair.2 with
     | Some p => bool_decide (server p = server_id)
     | None => false
     end then
    {| key_region := pair.1; key_role := role_primary;
       key_primary := nil_uuid; key_branch := nil_uuid |}
  else if bool_decide (server_id ∈ replicas pair.2) then
    {| key_region := pair.1; key_role := role_secondary;
       key_primary :=
         match primary pair.2 with
         | Some p => server p
         | None => nil_uuid
         end;
       key_branch := branch pair.2 |}
  else
    {| key_region := pair.1; key_role := role_erase;
       key_primary := nil_uuid; key_branch := nil_uuid |}.

(** ** Executions and the executor's state *)

(** What the executor knows of a running [execution_t]: which of
    [primary_execution_t], [secondary_execution_t] or [erase_execution_t] it
    is, and the region, contract and acker it was last given.  The acker is
    [std::bind(&send_ack, this, key, contract_id, _1)], that is the pair it
    binds. *)
Record execution_t : Type := {
  exec_role : role_t;
  exec_region : region_t;
  exec_contract : contract_t;
  exec_acker : key_t * contract_id_t
}.

(** Modelled from the spec: [execution_data_t] is declared in executor.hpp.
    The spec's ExecutionState holds the contract id, the handle of the
    running execution and the per-region resources (a storage sub-view on
    the region, a metrics registration); executor.cc assigns [contract_id],
    [store_subview], [perfmon_membership] and [execution].  The membership
    is kept as what names it, the role and the counter's value; the handle
    is empty after [reset()]. *)
Record execution_data_t : Type := {
  contract_id : contract_id_t;
  store_subview : region_t;
  perfmon_name : role_t * Z;
  execution : option execution_t
}.

(** The members of the executor that change: [executions], [ack_map] and
    [perfmon_counter] (an [int]; it counts the executions created). *)
Record executor_state : Type := {
  executions : gmap key_t execution_data_t;
  ack_map : gmap (server_id_t * contract_id_t) contract_ack_t;
  perfmon_counter : Z
}.

(** The bounds of a 32-bit [int], and [++perfmon_counter] on it: the
    successor, which wraps around from [int_max] to [int_min]. *)
Definition int_max : Z := 2147483647.
Definition int_min : Z := (-2147483648)%Z.

Definition int_incr (n : Z) : Z :=
  if decide (n = int_max) then int_min else (n + 1)%Z.

(** Calls made to collaborators, in program order. *)
Inductive event : Type :=
  | EvCreate (key : key_t) (cid : contract_id_t) (c : contract_t)
  | EvUpdateContract (key : key_t) (c : contract_t)
      (acker : key_t * contract_id_t)
  | EvReset (key : key_t)
  | EvErase (key : key_t)
  | EvAckDelete (k : server_id_t * contract_id_t)
  | EvAckSet (k : server_id_t * contract_id_t) (ack : contract_ack_t)
  | EvNotify.

(** ** The executor monad *)

Definition exec (A : Type) : Type :=
  executor_state → option (A * executor_state * list event).

#[global] Instance exec_ret : MRet exec := λ A x s, Some (x, s, []).

#[global] Instance exec_bind : MBind exec := λ A B f m s,
  match m s with
  | Some (x, s1, t1) =>
      match f x s1 with
      | Some (y, s2, t2) => Some (y, s2, t1 ++ t2)
      | None => None
      end
  | None => None
  end.

Definition crash {A : Type} : exec A := λ _, None.
Definition get_state : exec executor_state := λ s, Some (s, s, []).
Definition put_state (s' : executor_state) : exec () := λ _, Some ((), s', []).
Definition log (ev : event) : exec () := λ s, Some ((), s, [ev]).

Definition set_executions (m : gmap key_t execution_data_t)
    (s : executor_state) : executor_state :=
  {| executions := m; ack_map := ack_map s;
     perfmon_counter := perfmon_counter s |}.

Definition set_ack_map (a : gmap (server_id_t * contract_id_t) contract_ack_t)
    (s : executor_state) : executor_state :=
  {| executions := executions s; ack_map := a;
     perfmon_counter := perfmon_counter s |}.

Definition with_executions
    (f : gmap key_t execution_data_t → gmap key_t execution_data_t) :
    exec () :=
  s ← get_state;
  put_state (set_executions (f (executions s)) s).

(** [ack_map.delete_key(k)] *)
Definition ack_map_delete_key (k : server_id_t * contract_id_t) : exec () :=
  s ← get_state;
  put_state (set_ack_map (delete k (ack_map s)) s);;
  log (EvAckDelete k).

(** [ack_map.set_key_no_equals(k, ack)] *)
Definition ack_map_set_key_no_equals
    (k : server_id_t * contract_id_t) (ack : contract_ack_t) : exec () :=
  s ← get_state;
  put_state (set_ack_map (<[k := ack]> (ack_map s)) s);;
  log (EvAckSet k ack).

Definition set_contract_id (cid : contract_id_t) (d : execution_data_t) :
    execution_data_t :=
  {| contract_id := cid; store_subview := store_subview d;
     perfmon_name := perfmon_name d; execution := execution d |}.

Definition set_execution (e : option execution_t) (d : execution_data_t) :
    execution_data_t :=
  {| contract_id := contract_id d; store_subview := store_subview d;
     perfmon_name := perfmon_name d; execution := e |}.

(** [execution_t::update_contract(contract, acker)] as seen from outside:
    the execution now works for the new contract and acks through the new
    acker. *)
Definition update_contract (c : contract_t)
    (acker : key_t * contract_id_t) (e : execution_t) : execution_t :=
  {| exec_role := exec_role e; exec_region := exec_region e;
     exec_contract := c; exec_acker := acker |}.

(** ** [contract_executor_t::send_ack] *)

(** [executions.at(key)] throws when [key] is absent. *)
Definition send_ack (key : key_t) (cid : contract_id_t)
    (ack : contract_ack_t) : exec () :=
  s ← get_state;
  match executions s !! key with
  | None => crash
  | Some data =>
      if bool_decide (contract_id data = cid) then
        ack_map_set_key_no_equals (server_id, cid) ack
      else mret ()
  end.

(** ** [contract_executor_t::update] *)

(** The inner loop over [executions] that computes [ok_to_create]. *)
Definition ok_to_create (execs : gmap key_t execution_data_t)
    (region : region_t) : bool :=
  forallb (λ old_pair, negb (region_overlaps (key_region old_pair.1) region))
          (map_to_list execs).

(** The branch that updates an existing execution ([it != executions.end()]). *)
Definition update_existing (key : key_t) (data : execution_data_t)
    (new_pair : new_pair_t) : exec () :=
  if bool_decide (contract_id data ≠ new_pair.1) then
    let old_contract_id := contract_id data in
    let acker := (key, new_pair.1) in
    match execution data with
    | None => crash
    | Some e =>
        with_executions
          <[key := set_execution (Some (update_contract new_pair.2.2 acker e))
                     (set_contract_id new_pair.1 data)]>;;
        log (EvUpdateContract key new_pair.2.2 acker);;
        ack_map_delete_key (server_id, old_contract_id)
    end
  else mret ().

(** The [execution_data_t] built for a new execution: the contract id, the
    store subview on the key's region, the perfmon membership named after the
    role and the incremented counter, and the execution of the key's role
    constructed over the region, the contract and the acker. *)
Definition new_data (s : executor_state) (key : key_t)
    (new_pair : new_pair_t) : execution_data_t :=
  {| contract_id := new_pair.1;
     store_subview := key_region key;
     perfmon_name := (key_role key, int_incr (perfmon_counter s));
     execution :=
       Some {| exec_role := key_role key; exec_region := key_region key;
               exec_contract := new_pair.2.2;
               exec_acker := (key, new_pair.1) |} |}.

(** The branch that creates a new execution. *)
Definition create_execution (key : key_t)
    (new_pair : new_pair_t) : exec () :=
  s ← get_state;
  put_state {| executions := <[key := new_data s key new_pair]> (executions s);
               ack_map := ack_map s;
               perfmon_counter := int_incr (perfmon_counter s) |};;
  log (EvCreate key new_pair.1 new_pair.2.2).

(** The body of the loop over [new_state.contracts]. *)
Definition update_pair (new_pair : new_pair_t) :
    exec () :=
  let key := get_contract_key new_pair.2 in
  s ← get_state;
  match executions s !! key with
  | Some data => update_existing key data new_pair
  | None =>
      if ok_to_create (executions s) new_pair.2.1 then
        create_execution key new_pair
      else mret ()
  end.

(** The loop over [new_state.contracts], given in iteration order; it
    returns [dont_delete]. *)
Fixpoint update_loop (contracts : contracts_t)
    (dont_delete : gset key_t) :
    exec (gset key_t) :=
  match contracts with
  | [] => mret dont_delete
  | new_pair :: rest =>
      update_pair new_pair;;
      update_loop rest ({[get_contract_key new_pair.2]} ∪ dont_delete)
  end.

(** [update(new_state, to_delete_out)]; the result is the final content of
    [*to_delete_out]. *)
Definition update (contracts : contracts_t)
    (to_delete_out : gset key_t) :
    exec (gset key_t) :=
  dont_delete ← update_loop contracts ∅;
  s ← get_state;
  mret (to_delete_out ∪ filter (λ k, k ∉ dont_delete) (dom (executions s))).

(** ** [contract_executor_t::update_blocking] *)

(** [it->second->execution.reset()] *)
Definition reset_execution (key : key_t) : exec () :=
  s ← get_state;
  match executions s !! key with
  | None => crash
  | Some data =>
      with_executions <[key := set_execution None data]>;;
      log (EvReset key)
  end.

(** [ack_map.delete_key(std::make_pair(server_id, it->second->contract_id))] *)
Definition delete_ack_of (key : key_t) : exec () :=
  s ← get_state;
  match executions s !! key with
  | None => crash
  | Some data => ack_map_delete_key (server_id, contract_id data)
  end.

(** [executions.erase(it)] *)
Definition erase_execution (key : key_t) : exec () :=
  with_executions (delete key);;
  log (EvErase key).

(** The body of the loop over [to_delete]; [guarantee] fails on a key that
    is not in [executions]. *)
Definition teardown (key : key_t) : exec () :=
  s ← get_state;
  match executions s !! key with
  | None => crash
  | Some _ =>
      reset_execution key;;
      delete_ack_of key;;
      erase_execution key
  end.

Fixpoint teardown_loop (keys : list key_t) : exec () :=
  match keys with
  | [] => mret ()
  | key :: rest => teardown key;; teardown_loop rest
  end.

Definition update_blocking
    (contracts : contracts_t) : exec () :=
  to_delete ← update contracts ∅;
  if bool_decide (to_delete ≠ ∅) then
    teardown_loop (iteration_order to_delete);;
    log EvNotify
  else mret ().

(** The update pumper running [update_blocking] [n] times in a row over an
    unchanged mapping. *)
Fixpoint update_blocking_n (n : nat)
    (contracts : contracts_t) : exec () :=
  match n with
  | 0 => mret ()
  | S n => update_blocking contracts;; update_blocking_n n contracts
  end.

(** The state and the log a computation ends with. *)
Definition run_state {A : Type} (m : exec A) (s : executor_state) :
    option executor_state :=
  (λ r, r.1.2) <$> m s.

Definition run_log {A : Type} (m : exec A) (s : executor_state) :
    option (list event) :=
  (λ r, r.2) <$> m s.

(** ** The loop of [update] as a relation *)

(** The state after the branch that swaps the contract id. *)
Definition swapped (s : executor_state) (key : key_t)
    (d : execution_data_t) (e : execution_t)
    (new_pair : new_pair_t) : executor_state :=
  set_ack_map (delete (server_id, contract_id d) (ack_map s))
    (set_executions
       (<[key := set_execution
                   (Some (update_contract new_pair.2.2 (key, new_pair.1) e))
                   (set_contract_id new_pair.1 d)]> (executions s)) s).

(** The state after the branch that creates an execution. *)
Definition created (s : executor_state) (key : key_t)
    (new_pair : new_pair_t) : executor_state :=
  {| executions := <[key := new_data s key new_pair]> (executions s);
     ack_map := ack_map s;
     perfmon_counter := int_incr (perfmon_counter s) |}.

(** The four ways through the loop body of [update]. *)
Inductive update_pair_case (s : executor_state)
    (new_pair : new_pair_t) :
    executor_state → list event → Prop :=
  | case_same d :
      executions s !! get_contract_key new_pair.2 = Some d →
      contract_id d = new_pair.1 →
      update_pair_case s new_pair s []
  | case_swap d e :
      executions s !! get_contract_key new_pair.2 = Some d →
      contract_id d ≠ new_pair.1 →
      execution d = Some e →
      update_pair_case s new_pair
        (swapped s (get_contract_key new_pair.2) d e new_pair)
        [EvUpdateContract (get_contract_key new_pair.2) new_pair.2.2
           (get_contract_key new_pair.2, new_pair.1);
         EvAckDelete (server_id, contract_id d)]
  | case_blocked :
      executions s !! get_contract_key new_pair.2 = None →
      ok_to_create (executions s) new_pair.2.1 = false →
      update_pair_case s new_pair s []
  | case_create :
      executions s !! get_contract_key new_pair.2 = None →
      ok_to_create (executions s) new_pair.2.1 = true →
      update_pair_case s new_pair
        (created s (get_contract_key new_pair.2) new_pair)
        [EvCreate (get_contract_key new_pair.2) new_pair.1 new_pair.2.2].

(** A run of the loop over the contracts: the chain of loop bodies. *)
Inductive update_loop_run :
    contracts_t →
    executor_state → executor_state → list event → Prop :=
  | run_nil s : update_loop_run [] s s []
  | run_cons new_pair rest s s1 t1 s2 t2 :
      update_pair_case s new_pair s1 t1 →
      update_loop_run rest s1 s2 t2 →
      update_loop_run (new_pair :: rest) s s2 (t1 ++ t2).

(** ** Observations on the log *)

(** The keys of the executions constructed, in order of construction. *)
Definition created_keys (t : list event) : list key_t :=
  omap (λ ev, match ev with EvCreate key _ _ => Some key | _ => None end) t.

(** Whether an event belongs to the part of [update_blocking] that follows
    [update]: the teardown of executions and the notification of the
    pumper. *)
Definition is_teardown_event (ev : event) : bool :=
  match ev with
  | EvReset _ | EvErase _ | EvNotify => true
  | _ => false
  end.

(** The keys derived from the contracts of a mapping: what [update] collects
    in [dont_delete]. *)
Definition wanted_keys
    (contracts : contracts_t) : gset key_t :=
  list_to_set ((λ new_pair, get_contract_key new_pair.2) <$> contracts).

(** What the teardown of [keys] logs when it starts in state [s]: for each
    key the reset of its execution, the deletion of the ack of the contract
    id recorded for the key, and the erasure of the entry. *)
Definition teardown_log (s : executor_state) (keys : list key_t) : list event :=
  keys ≫= λ key,
    match executions s !! key with
    | Some data =>
        [EvReset key; EvAckDelete (server_id, contract_id data); EvErase key]
    | None => []
    end.

(** ** Invariants of the executor's state *)

(** Every entry of [executions] holds a running execution: the handle is
    only empty between [reset()] and [erase()] in [update_blocking]. *)
Definition handles_live (s : executor_state) : Prop :=
  ∀ key data, executions s !! key = Some data → is_Some (execution data).

#[global] Instance handles_live_dec (s : executor_state) :
  Decision (handles_live s).
Proof.
  refine (cast_if (decide (map_Forall (λ _ data, is_Some (execution data))
                             (executions s)))); done.
Defined.

(** No two distinct keys of [executions] have overlapping regions. *)
Definition no_overlap (s : executor_state) : Prop :=
  ∀ k1 k2, k1 ∈ dom (executions s) → k2 ∈ dom (executions s) → k1 ≠ k2 →
    region_overlaps (key_region k1) (key_region k2) = false.

#[global] Instance no_overlap_dec (s : executor_state) :
  Decision (no_overlap s).
Proof.
  destruct (decide (set_Forall (λ k1,
              set_Forall (λ k2, k1 ≠ k2 →
                region_overlaps (key_region k1) (key_region k2) = false)
                (dom (executions s))) (dom (executions s))))
    as [Hyes|Hno].
  - left. intros k1 k2 Hk1 Hk2. by apply Hyes.
  - right. intros Hinv. apply Hno. intros k1 Hk1 k2 Hk2. by apply Hinv.
Defined.

(** The overlap test as the design notes of the specification describe it:
    a candidate region is compared with the keys that were in [executions]
    when the pass began, [before] being the state at that point. *)
Definition ok_to_create_before_pass (before : executor_state)
    (region : region_t) : bool :=
  ok_to_create (executions before) region.

(** ** Where reconciliation stops *)

(** Every key of [executions] is derived from a contract of the mapping. *)
Definition settled (contracts : contracts_t)
    (s : executor_state) : Prop :=
  dom (executions s) ⊆ wanted_keys contracts.

(** Every contract of the mapping has its key in [executions] or is refused
    by the overlap test. *)
Definition saturated (contracts : contracts_t)
    (s : executor_state) : Prop :=
  ∀ new_pair, new_pair ∈ contracts →
    get_contract_key new_pair.2 ∈ dom (executions s) ∨
    ok_to_create (executions s) new_pair.2.1 = false.

(** Every entry of [executions] records the id of the contract its key is
    derived from. *)
Definition up_to_date (contracts : contracts_t)
    (s : executor_state) : Prop :=
  ∀ new_pair data, new_pair ∈ contracts →
    executions s !! get_contract_key new_pair.2 = Some data →
    contract_id data = new_pair.1.

(** The states in which reconciliation creates and deletes nothing any
    more. *)
Definition stable (contracts : contracts_t)
    (s : executor_state) : Prop :=
  handles_live s ∧ settled contracts s ∧ saturated contracts s.

(** ** The loop of [update], seen from one entry *)





(** Modelled from the spec: an overlapping supersession.  The contract
    [new_pair] of the mapping supersedes the live execution of [key]: the
    contract's key has no entry, [key] is derived from no contract of the
    mapping, and the regions overlap, so that the execution of [key] has to
    be torn down before the contract's execution can be created. *)
Definition supersedes (contracts : contracts_t) (s : executor_state)
    (new_pair : new_pair_t) (key : key_t) : bool :=
  bool_decide (get_contract_key new_pair.2 ∉ dom (executions s)) &&
  bool_decide (key ∉ wanted_keys contracts) &&
  region_overlaps (key_region key) new_pair.2.1.

(** Modelled from the spec: the maximum chain length of overlapping
    supersessions.  An execution that nothing supersedes is a chain of
    length 1.  A live execution superseded by a contract of the mapping
    makes a chain of length 2.  While the mapping does not change there is
    no longer chain: what supersedes is a contract of the mapping, and what
    is superseded is derived from no contract of the mapping. *)
Definition chain_length (contracts : contracts_t) (s : executor_state) : nat :=
  if existsb (λ new_pair,
                existsb (supersedes contracts s new_pair)
                        (elements (dom (executions s)))) contracts
  then 2 else 1.

(** ** The executor in use *)

(** What happens to a constructed executor: the update pumper runs
    [update_blocking] on the mapping of the current raft state, and
    executions call [send_ack] through ackers they were given. *)
Inductive action : Type :=
  | ActPass (contracts : contracts_t)
  | ActAck (key : key_t) (cid : contract_id_t) (ack : contract_ack_t).

Definition do_action (a : action) : exec () :=
  match a with
  | ActPass contracts => update_blocking contracts
  | ActAck key cid ack => send_ack key cid ack
  end.

Fixpoint do_actions (actions : list action) : exec () :=
  match actions with
  | [] => mret ()
  | a :: rest => do_action a;; do_actions rest
  end.



(** [new_state.contracts] is a [std::map]: no contract id occurs twice. *)
Definition well_keyed (a : action) : Prop :=
  match a with
  | ActPass contracts => NoDup contracts.*1
  | ActAck _ _ _ => True
  end.

(** A series of calls of [send_ack] for one key. *)
Fixpoint send_acks (key : key_t) (acks : list (contract_id_t * contract_ack_t)) :
    exec () :=
  match acks with
  | [] => mret ()
  | a :: rest => send_ack key a.1 a.2;; send_acks key rest
  end.

(** The body of the loop over [to_delete] when the execution, while it is
    being reset, still calls [send_ack]: the calls fall between the reset
    and the deletion of the ack. *)
Definition teardown_with_acks (key : key_t)
    (acks : list (contract_id_t * contract_ack_t)) : exec () :=
  s ← get_state;
  match executions s !! key with
  | None => crash
  | Some _ =>
      reset_execution key;;
      send_acks key acks;;
      delete_ack_of key;;
      erase_execution key
  end.

(** The last ack of a series sent with contract id [cid], if any. *)
Definition last_ack_for (cid : contract_id_t)
    (acks : list (contract_id_t * contract_ack_t)) : option contract_ack_t :=
  snd <$> last (filter (λ a, a.1 = cid) acks).

(** ** Invariants of the entries *)

(** An entry is built for its key: the store subview is on the key's
    region, the perfmon membership is named after the key's role, and the
    execution, if it runs, is of the key's role and on the key's region. *)
Definition entries_match_keys (s : executor_state) : Prop :=
  ∀ key data, executions s !! key = Some data →
    store_subview data = key_region key ∧
    (perfmon_name data).1 = key_role key ∧
    ∀ e, execution data = Some e →
      exec_role e = key_role key ∧ exec_region e = key_region key.

(** The acker a running execution was last given binds the execution's own
    key and the contract id recorded in its entry. *)
Definition ackers_bound (s : executor_state) : Prop :=
  ∀ key data e, executions s !! key = Some data → execution data = Some e →
    exec_acker e = (key, contract_id data).

(** Every ack in the ack map is stored under this server's id and under a
    contract id that some entry of [executions] records. *)
Definition acks_backed (s : executor_state) : Prop :=
  ∀ a, is_Some (ack_map s !! a) →
    a.1 = server_id ∧
    ∃ key data, executions s !! key = Some data ∧ contract_id data = a.2.

(** The counter is not negative; the numbers in the perfmon names are
    positive, at most the counter, and differ from entry to entry. *)
Definition perfmon_unique (s : executor_state) : Prop :=
  (0 ≤ perfmon_counter s)%Z ∧
  (∀ key data, executions s !! key = Some data →
     (0 < (perfmon_name data).2 ≤ perfmon_counter s)%Z) ∧
  (∀ k1 k2 d1 d2,
     executions s !! k1 = Some d1 → executions s !! k2 = Some d2 →
     (perfmon_name d1).2 = (perfmon_name d2).2 → k1 = k2).

(** No two entries record the same contract id. *)
Definition ids_distinct (s : executor_state) : Prop :=
  ∀ k1 k2 d1 d2,
    executions s !! k1 = Some d1 → executions s !! k2 = Some d2 →
    contract_id d1 = contract_id d2 → k1 = k2.

(** What holds of the state of an executor in use. *)
Definition well_formed (s : executor_state) : Prop :=
  handles_live s ∧ entries_match_keys s ∧ ackers_bound s ∧ acks_backed s.

End executor.

Arguments execution_t : clear implicits.
Arguments execution_data_t : clear implicits.
Arguments executor_state _ {_ _} _.
Arguments event : clear implicits.
Arguments action : clear implicits.

(** ** A concrete region type *)

(** Modelled from the spec: [region_t] and [region_overlaps] are declared
    outside executor.cc.  The spec describes a region as a contiguous range of
    the keyspace, written [[a,z)], that supports equality and overlap tests;
    here keys are numbers and a region is a half-open interval. *)
Record interval : Type := { left_bound : N; right_bound : N }.

#[global] Instance interval_eq_dec : EqDecision interval.
Proof. solve_decision. Defined.

#[global] Program Instance interval_countable : Countable interval :=
  inj_countable' (λ i, (left_bound i, right_bound i))
                 (λ p, {| left_bound := p.1; right_bound := p.2 |}) _.
Next Obligation. by intros []. Qed.

(** Two intervals overlap when both are non-empty and share a key. *)
Definition interval_overlaps (a b : interval) : bool :=
  (left_bound a <? right_bound a)%N && (left_bound b <? right_bound b)%N &&
  (left_bound a <? right_bound b)%N && (left_bound b <? right_bound a)%N.

(** The executor of server 1 over interval regions.  The order of a
    [std::set] of keys is the order of the key's [operator<]; any enumeration
    of the set serves where only one pass is run. *)
#[global] Program Instance node1_env : executor_env interval := {|
  region_overlaps := interval_overlaps;
  server_id := 1%N;
  iteration_order := elements
|}.
Next Obligation. done. Qed.

(** The state of a freshly constructed executor. *)
Definition empty_state {region_t : Type} `{Countable region_t}
    {contract_ack_t : Type} : executor_state region_t contract_ack_t :=
  {| executions := ∅; ack_map := ∅; perfmon_counter := 0 |}.

(** ** Scenarios on server 1 *)

Abbreviation node_state := (executor_state interval nat).
Abbreviation node_event := (event interval nat).
Abbreviation node_contracts :=
  (list (contract_id_t * (interval * contract_t))).

Definition iv (a b : N) : interval := {| left_bound := a; right_bound := b |}.

(** A contract that names server 1 as primary. *)
Definition primary_here : contract_t :=
  {| replicas := {[1%N; 2%N]};
     primary := Some {| server := 1%N |};
     branch := 7%N |}.

(** A contract with server 2 as primary and server 1 as replica. *)
Definition secondary_here : contract_t :=
  {| replicas := {[1%N; 2%N]};
     primary := Some {| server := 2%N |};
     branch := 7%N |}.

(** A contract that does not mention server 1. *)
Definition elsewhere : contract_t :=
  {| replicas := {[2%N; 3%N]};
     primary := Some {| server := 2%N |};
     branch := 7%N |}.

Definition primary_key (region : interval) : execution_key_t interval :=
  {| key_region := region; key_role := role_primary;
     key_primary := nil_uuid; key_branch := nil_uuid |}.

(** The entry of a primary execution on [region] that was created as the
    [n]-th execution, records contract [cid] and was last given the acker
    for [acker_cid]. *)
Definition primary_data (cid : contract_id_t) (region : interval) (n : Z)
    (acker_cid : contract_id_t) : execution_data_t interval :=
  {| contract_id := cid;
     store_subview := region;
     perfmon_name := (role_primary, n);
     execution :=
       Some {| exec_role := role_primary; exec_region := region;
               exec_contract := primary_here;
               exec_acker := (primary_key region, acker_cid) |} |}.

(** Server 1 is primary for [[0,5)] under contract 9. *)
Definition old_contracts : node_contracts :=
  [(9%N, (iv 0 5, primary_here))].

Definition state_old : node_state :=
  {| executions := {[ primary_key (iv 0 5) := primary_data 9 (iv 0 5) 1 9 ]};
     ack_map := ∅;
     perfmon_counter := 1 |}.

(** Contract 9 is replaced by contract 12, same region and primary. *)
Definition renewed_contracts : node_contracts :=
  [(12%N, (iv 0 5, primary_here))].

Definition state_renewed : node_state :=
  {| executions := {[ primary_key (iv 0 5) := primary_data 12 (iv 0 5) 1 12 ]};
     ack_map := ∅;
     perfmon_counter := 1 |}.

(** Contract 9 is replaced by two contracts with overlapping regions, of
    which only the first overlaps the old region. *)
Definition handoff_contracts : node_contracts :=
  [(10%N, (iv 3 10, primary_here)); (11%N, (iv 8 12, primary_here))].

Definition state_after_handoff : node_state :=
  {| executions := {[ primary_key (iv 8 12) := primary_data 11 (iv 8 12) 2 11 ]};
     ack_map := ∅;
     perfmon_counter := 2 |}.

(** Two contracts with overlapping regions, given to a fresh executor. *)
Definition overlapping_contracts :
    node_contracts :=
  [(10%N, (iv 0 5, primary_here)); (11%N, (iv 3 8, primary_here))].

Definition state_first_created : node_state :=
  {| executions := {[ primary_key (iv 0 5) := primary_data 10 (iv 0 5) 1 10 ]};
     ack_map := ∅;
     perfmon_counter := 1 |}.

(** Two contracts for the same region that both name server 1 as primary:
    they derive the same key. *)
Definition twin_contracts : node_contracts :=
  [(10%N, (iv 0 5, primary_here)); (11%N, (iv 0 5, primary_here))].




(** ** Histories of the executor of server 1 *)

Abbreviation node_action := (action interval nat).

(** The old execution has stored an ack for contract 9. *)
Definition state_old_acked : node_state :=
  {| executions := {[ primary_key (iv 0 5) := primary_data 9 (iv 0 5) 1 9 ]};
     ack_map := {[ (1%N, 9%N) := 42 ]};
     perfmon_counter := 1 |}.

(** The handoff after [update] and before the teardown. *)
Definition state_mid_handoff : node_state :=
  {| executions :=
       {[ primary_key (iv 0 5) := primary_data 9 (iv 0 5) 1 9;
          primary_key (iv 8 12) := primary_data 11 (iv 8 12) 2 11 ]};
     ack_map := ∅;
     perfmon_counter := 2 |}.

(** The executor is constructed, sees contract 9, its execution acks, and
    the handoff follows. *)
Definition history_acked : list node_action :=
  [ActPass old_contracts; ActAck (primary_key (iv 0 5)) 9%N 42].

Definition history_handoff : list node_action :=
  history_acked ++ [ActPass handoff_contracts].

Definition log_handoff : list node_event :=
  [EvCreate (primary_key (iv 0 5)) 9%N primary_here;
   EvAckSet (1%N, 9%N) 42;
   EvCreate (primary_key (iv 8 12)) 11%N primary_here;
   EvReset (primary_key (iv 0 5));
   EvAckDelete (1%N, 9%N);
   EvErase (primary_key (iv 0 5));
   EvNotify].

(** Two contracts with disjoint regions, given to a fresh executor. *)
Definition disjoint_contracts : node_contracts :=
  [(10%N, (iv 0 5, primary_here)); (12%N, (iv 8 12, primary_here))].

Definition state_two : node_state :=
  {| executions :=
       {[ primary_key (iv 0 5) := primary_data 10 (iv 0 5) 1 10;
          primary_key (iv 8 12) := primary_data 12 (iv 8 12) 2 12 ]};
     ack_map := ∅;
     perfmon_counter := 2 |}.

Definition log_two : list node_event :=
  [EvCreate (primary_key (iv 0 5)) 10%N primary_here;
   EvCreate (primary_key (iv 8 12)) 12%N primary_here].

(** * Properties *)

Section executor_facts.

Context {region_t : Type} `{Countable region_t} `{!executor_env region_t}.
Context {contract_ack_t : Type}.

Local Abbreviation key_t := (execution_key_t region_t).
Local Abbreviation state_t := (executor_state region_t contract_ack_t).
Local Abbreviation event_t := (event region_t contract_ack_t).
Local Abbreviation new_pair_t := (contract_id_t * (region_t * contract_t))%type.

Implicit Types (s : state_t) (key k : key_t) (t : list event_t).
Implicit Types (new_pair : new_pair_t) (cid : contract_id_t).
Implicit Types (ack : contract_ack_t) (data d : execution_data_t region_t).

(** ** Running the monad *)

Lemma exec_bind_Some {A B} (m : exec A) (f : A → exec B) s y s2 t :
  (m ≫= f) s = Some (y, s2, t) ↔
  ∃ x s1 t1 t2, m s = Some (x, s1, t1) ∧ f x s1 = Some (y, s2, t2) ∧
                t = t1 ++ t2.
Proof.
  unfold mbind, exec_bind. split.
  - destruct (m s) as [[[x s1] t1]|]; [|done].
    destruct (f x s1) as [[[y' s2'] t2]|] eqn:Hf; [|done].
    intros [= <- <- <-]. by exists x, s1, t1, t2.
  - intros (x & s1 & t1 & t2 & -> & -> & ->). done.
Qed.

Lemma exec_bind_run {A B} (m : exec A) (f : A → exec B) s x s1 t1 :
  m s = Some (x, s1, t1) →
  (m ≫= f) s = (λ r, (r.1, t1 ++ r.2)) <$> f x s1.
Proof.
  intros Hm. unfold mbind, exec_bind. rewrite Hm.
  by destruct (f x s1) as [[[y s2] t2]|].
Qed.

(** ** What each operation computes *)

Lemma send_ack_absent s key cid ack :
  executions s !! key = None → send_ack key cid ack s = None.
Proof. intros Hk. unfold send_ack, mbind, exec_bind. simpl. by rewrite Hk. Qed.

Lemma send_ack_stale s key cid ack d :
  executions s !! key = Some d → contract_id d ≠ cid →
  send_ack key cid ack s = Some ((), s, []).
Proof.
  intros Hk Hne. unfold send_ack, mbind, exec_bind. simpl. rewrite Hk.
  by rewrite bool_decide_eq_false_2.
Qed.

Lemma send_ack_current s key cid ack d :
  executions s !! key = Some d → contract_id d = cid →
  send_ack key cid ack s =
    Some ((), set_ack_map (<[(server_id, cid) := ack]> (ack_map s)) s,
          [EvAckSet (server_id, cid) ack]).
Proof.
  intros Hk Heq. unfold send_ack, mbind, exec_bind. simpl. rewrite Hk.
  by rewrite bool_decide_eq_true_2.
Qed.

Lemma update_existing_same s key d new_pair :
  contract_id d = new_pair.1 →
  update_existing key d new_pair s = Some ((), s, []).
Proof.
  intros Heq. unfold update_existing.
  rewrite bool_decide_eq_false_2; [done | by intros ?].
Qed.

Lemma update_existing_swap s key d e new_pair :
  contract_id d ≠ new_pair.1 → execution d = Some e →
  update_existing key d new_pair s =
    Some ((),
          set_ack_map (delete (server_id, contract_id d) (ack_map s))
            (set_executions
               (<[key := set_execution
                           (Some (update_contract new_pair.2.2
                                    (key, new_pair.1) e))
                           (set_contract_id new_pair.1 d)]> (executions s)) s),
          [EvUpdateContract key new_pair.2.2 (key, new_pair.1);
           EvAckDelete (server_id, contract_id d)]).
Proof.
  intros Hne He. unfold update_existing.
  rewrite bool_decide_eq_true_2; [|done]. by rewrite He.
Qed.

Lemma update_existing_null s key d new_pair :
  contract_id d ≠ new_pair.1 → execution d = None →
  update_existing key d new_pair s = None.
Proof.
  intros Hne He. unfold update_existing.
  rewrite bool_decide_eq_true_2; [|done]. by rewrite He.
Qed.

Lemma update_pair_live s new_pair d :
  executions s !! get_contract_key new_pair.2 = Some d →
  update_pair new_pair s =
    update_existing (get_contract_key new_pair.2) d new_pair s.
Proof.
  intros Hk. unfold update_pair, mbind, exec_bind. simpl. rewrite Hk.
  by destruct (update_existing _ _ _ _) as [[[[] ?] ?]|].
Qed.

Lemma update_pair_blocked s new_pair :
  executions s !! get_contract_key new_pair.2 = None →
  ok_to_create (executions s) new_pair.2.1 = false →
  update_pair new_pair s = Some ((), s, []).
Proof.
  intros Hk Hok. unfold update_pair, mbind, exec_bind. simpl.
  by rewrite Hk, Hok.
Qed.

Lemma update_pair_create s new_pair :
  executions s !! get_contract_key new_pair.2 = None →
  ok_to_create (executions s) new_pair.2.1 = true →
  update_pair new_pair s =
    Some ((),
          {| executions :=
               <[get_contract_key new_pair.2 :=
                   new_data s (get_contract_key new_pair.2) new_pair]>
                 (executions s);
             ack_map := ack_map s;
             perfmon_counter := int_incr (perfmon_counter s) |},
          [EvCreate (get_contract_key new_pair.2) new_pair.1 new_pair.2.2]).
Proof.
  intros Hk Hok. unfold update_pair, mbind, exec_bind. simpl.
  by rewrite Hk, Hok.
Qed.

Lemma ok_to_create_true (execs : gmap key_t (execution_data_t region_t))
    (region : region_t) :
  ok_to_create execs region = true ↔
  ∀ k, k ∈ dom execs → region_overlaps (key_region k) region = false.
Proof.
  unfold ok_to_create. rewrite forallb_forall. split.
  - intros Hall k [d Hd]%elem_of_dom.
    specialize (Hall (k, d)). rewrite <- list_elem_of_In in Hall.
    rewrite elem_of_map_to_list in Hall.
    specialize (Hall Hd). simpl in Hall. by destruct (region_overlaps _ _).
  - intros Hall [k d] Hkd%list_elem_of_In%elem_of_map_to_list. simpl.
    rewrite (Hall k); [done|]. apply elem_of_dom. eauto.
Qed.

Lemma ok_to_create_false (execs : gmap key_t (execution_data_t region_t))
    (region : region_t) :
  ok_to_create execs region = false ↔
  ∃ k, k ∈ dom execs ∧ region_overlaps (key_region k) region = true.
Proof.
  split.
  - intros Hf.
    destruct (decide (set_Exists
      (λ k, region_overlaps (key_region k) region = true) (dom execs)))
      as [Hex|Hnex]; [done|].
    assert (ok_to_create execs region = true) as Hok; [|congruence].
    apply ok_to_create_true. intros k Hk.
    destruct (region_overlaps (key_region k) region) eqn:Hov; [|done].
    destruct Hnex. by exists k.
  - intros (k & Hk & Hov). apply not_true_iff_false.
    rewrite ok_to_create_true. intros Hall.
    rewrite (Hall k Hk) in Hov. done.
Qed.

Lemma reset_execution_run s key d :
  executions s !! key = Some d →
  reset_execution key s =
    Some ((), set_executions (<[key := set_execution None d]> (executions s)) s,
          [EvReset key]).
Proof.
  intros Hk. unfold reset_execution, mbind, exec_bind. simpl. by rewrite Hk.
Qed.

Lemma delete_ack_of_run s key d :
  executions s !! key = Some d →
  delete_ack_of key s =
    Some ((), set_ack_map (delete (server_id, contract_id d) (ack_map s)) s,
          [EvAckDelete (server_id, contract_id d)]).
Proof.
  intros Hk. unfold delete_ack_of, mbind, exec_bind. simpl. by rewrite Hk.
Qed.

Lemma erase_execution_run s key :
  erase_execution key s =
    Some ((), set_executions (delete key (executions s)) s, [EvErase key]).
Proof. done. Qed.

(** ** Ack routing *)

(** C10. [send_ack] looks the key up with [std::map::at]: for a key that is
    not in [executions] the call fails instead of doing nothing, and it
    succeeds exactly when the key is present.  The teardown of a key keeps
    the entry while the execution is being reset and while the ack is
    deleted, so [send_ack] still succeeds at those points; after the entry
    is erased it fails. *)
Theorem send_ack_needs_entry s key cid ack :
  (executions s !! key = None → send_ack key cid ack s = None) ∧
  (is_Some (send_ack key cid ack s) ↔ key ∈ dom (executions s)) ∧
  (∀ d, executions s !! key = Some d →
     ∃ s1 s2 s3,
       reset_execution key s = Some ((), s1, [EvReset key]) ∧
       is_Some (send_ack key cid ack s1) ∧
       delete_ack_of key s1 =
         Some ((), s2, [EvAckDelete (server_id, contract_id d)]) ∧
       is_Some (send_ack key cid ack s2) ∧
       erase_execution key s2 = Some ((), s3, [EvErase key]) ∧
       send_ack key cid ack s3 = None).
Proof.
  assert (∀ s', is_Some (send_ack key cid ack s') ↔
                key ∈ dom (executions s')) as Hiff.
  { intros s'. rewrite elem_of_dom. split.
    - intros Hs. destruct (executions s' !! key) eqn:Hk; [done|].
      rewrite send_ack_absent in Hs by done. by destruct Hs.
    - intros [d Hd]. destruct (decide (contract_id d = cid)).
      + by erewrite send_ack_current.
      + by erewrite send_ack_stale. }
  split_and!; [apply send_ack_absent | apply Hiff |].
  intros d Hk. eexists _, _, _.
  split; [by apply reset_execution_run|].
  split; [apply Hiff; simpl; rewrite dom_insert_L;
          apply elem_of_union_r, elem_of_dom; eauto|].
  split; [by erewrite delete_ack_of_run; [|simpl; apply lookup_insert_eq]|].
  split; [apply Hiff; simpl; rewrite dom_insert_L;
          apply elem_of_union_r, elem_of_dom; eauto|].
  split; [apply erase_execution_run|].
  apply send_ack_absent. simpl. apply lookup_delete_eq.
Qed.

(** ** Updating an existing execution *)


(** ** The loop body of [update] *)

Lemma key_region_get_contract_key (pair : region_t * contract_t) :
  key_region (get_contract_key pair) = pair.1.
Proof.
  unfold get_contract_key.
  by destruct (match primary pair.2 with Some _ => _ | None => _ end),
              (bool_decide (server_id ∈ replicas pair.2)).
Qed.

Lemma update_pair_case_run s new_pair s' t :
  update_pair_case s new_pair s' t →
  update_pair new_pair s = Some ((), s', t).
Proof.
  destruct 1 as [d Hk Hc|d e Hk Hc He|Hk Hok|Hk Hok].
  - rewrite (update_pair_live _ _ _ Hk). by apply update_existing_same.
  - rewrite (update_pair_live _ _ _ Hk). by apply update_existing_swap.
  - by apply update_pair_blocked.
  - by apply update_pair_create.
Qed.

Lemma update_pair_total s new_pair :
  handles_live s → ∃ s' t, update_pair_case s new_pair s' t.
Proof.
  intros Hlive.
  destruct (executions s !! get_contract_key new_pair.2) as [d|] eqn:Hk.
  - destruct (decide (contract_id d = new_pair.1)) as [Hc|Hc].
    + eexists _, _. by eapply case_same.
    + destruct (Hlive _ _ Hk) as [e He]. eexists _, _. by eapply case_swap.
  - destruct (ok_to_create (executions s) new_pair.2.1) eqn:Hok.
    + eexists _, _. by eapply case_create.
    + eexists _, _. by eapply case_blocked.
Qed.

Lemma update_pair_inv s new_pair x s' t :
  update_pair new_pair s = Some (x, s', t) → update_pair_case s new_pair s' t.
Proof.
  intros Hrun.
  destruct (executions s !! get_contract_key new_pair.2) as [d|] eqn:Hk.
  - rewrite (update_pair_live _ _ _ Hk) in Hrun.
    destruct (decide (contract_id d = new_pair.1)) as [Hc|Hc].
    + rewrite update_existing_same in Hrun by done.
      injection Hrun as <- <- <-. by eapply case_same.
    + destruct (execution d) as [e|] eqn:He.
      * rewrite (update_existing_swap _ _ _ e) in Hrun by done.
        injection Hrun as <- <- <-. by eapply case_swap.
      * by rewrite update_existing_null in Hrun.
  - destruct (ok_to_create (executions s) new_pair.2.1) eqn:Hok.
    + rewrite update_pair_create in Hrun by done.
      injection Hrun as <- <- <-. by eapply case_create.
    + rewrite update_pair_blocked in Hrun by done.
      injection Hrun as <- <- <-. by eapply case_blocked.
Qed.

(** ** The loop of [update] *)

Lemma update_loop_run_exec contracts dont_delete s s' t :
  update_loop_run contracts s s' t →
  update_loop contracts dont_delete s =
    Some (wanted_keys contracts ∪ dont_delete, s', t).
Proof.
  intros Hrun. revert dont_delete.
  induction Hrun as [s|new_pair rest s s1 t1 s2 t2 Hcase _ IH];
    intros dont_delete; simpl.
  - unfold wanted_keys. simpl. by rewrite (left_id_L ∅ (∪)).
  - unfold mbind, exec_bind. rewrite (update_pair_case_run _ _ _ _ Hcase).
    rewrite IH. do 3 f_equal. unfold wanted_keys. simpl. set_solver.
Qed.

Lemma update_loop_inv contracts dont_delete s r s' t :
  update_loop contracts dont_delete s = Some (r, s', t) →
  r = wanted_keys contracts ∪ dont_delete ∧ update_loop_run contracts s s' t.
Proof.
  revert dont_delete s t.
  induction contracts as [|new_pair rest IH]; intros dont_delete s t; simpl.
  - intros [= <- <- <-]. split; [|constructor].
    unfold wanted_keys. simpl. by rewrite (left_id_L ∅ (∪)).
  - intros (x & s1 & t1 & t2 & Hp & Hl & ->)%exec_bind_Some.
    apply update_pair_inv in Hp. apply IH in Hl as [-> Hl].
    split; [|by econstructor]. unfold wanted_keys. simpl. set_solver.
Qed.

Lemma update_pair_case_handles_live s new_pair s' t :
  update_pair_case s new_pair s' t → handles_live s → handles_live s'.
Proof.
  destruct 1 as [d Hk Hc|d e Hk Hc He|Hk Hok|Hk Hok]; intros Hlive; try done.
  - intros k d' Hd'. simpl in Hd'.
    apply lookup_insert_Some in Hd' as [[_ <-]|[_ Hd']]; [by eexists|].
    by eapply Hlive.
  - intros k d' Hd'. simpl in Hd'.
    apply lookup_insert_Some in Hd' as [[_ <-]|[_ Hd']]; [by eexists|].
    by eapply Hlive.
Qed.

Lemma update_loop_run_handles_live contracts s s' t :
  update_loop_run contracts s s' t → handles_live s → handles_live s'.
Proof.
  induction 1; eauto using update_pair_case_handles_live.
Qed.

Lemma update_loop_run_total contracts s :
  handles_live s → ∃ s' t, update_loop_run contracts s s' t.
Proof.
  revert s. induction contracts as [|new_pair rest IH]; intros s Hlive.
  - eexists _, _. constructor.
  - destruct (update_pair_total s new_pair Hlive) as (s1 & t1 & Hcase).
    destruct (IH s1) as (s2 & t2 & Hrun);
      [by eapply update_pair_case_handles_live|].
    eexists _, _. by econstructor.
Qed.

(** The loop body adds at most the contract's key to [executions] and
    removes nothing. *)
Lemma update_pair_case_dom s new_pair s' t :
  update_pair_case s new_pair s' t →
  dom (executions s') =
    dom (executions s) ∪ list_to_set (created_keys t) ∧
  (∀ k, k ∈ created_keys t →
        k = get_contract_key new_pair.2 ∧ (k ∉ dom (executions s)) ∧
        ok_to_create (executions s) new_pair.2.1 = true) ∧
  NoDup (created_keys t) ∧
  Forall (λ ev, is_teardown_event ev = false) t.
Proof.
  destruct 1 as [d Hk Hc|d e Hk Hc He|Hk Hok|Hk Hok]; simpl.
  - split_and!; [set_solver | set_solver | constructor | constructor].
  - rewrite dom_insert_L. apply elem_of_dom_2 in Hk.
    split_and!; [set_solver | set_solver | constructor | by repeat constructor].
  - split_and!; [set_solver | set_solver | constructor | constructor].
  - rewrite dom_insert_L. apply not_elem_of_dom in Hk.
    split_and!; [set_solver | | apply NoDup_singleton | by repeat constructor].
    intros k ->%list_elem_of_singleton. done.
Qed.

Lemma created_keys_app t1 t2 :
  created_keys (t1 ++ t2) = created_keys t1 ++ created_keys t2.
Proof. unfold created_keys. apply omap_app. Qed.

(** What a run of the loop creates: the new keys are derived from contracts
    of the mapping, were absent before, are created once, and each one
    passed the overlap test against every key present before the run and
    every key created earlier in the run. *)
Lemma update_loop_run_created contracts s s' t :
  update_loop_run contracts s s' t →
  dom (executions s') = dom (executions s) ∪ list_to_set (created_keys t) ∧
  (∀ k, k ∈ created_keys t →
        k ∈ wanted_keys contracts ∧ k ∉ dom (executions s)) ∧
  NoDup (created_keys t) ∧
  Forall (λ ev, is_teardown_event ev = false) t ∧
  (∀ ta k tb, created_keys t = ta ++ k :: tb →
     ∀ k0, k0 ∈ dom (executions s) ∨ k0 ∈ ta →
           region_overlaps (key_region k0) (key_region k) = false).
Proof.
  induction 1 as [s|new_pair rest s s1 t1 s2 t2 Hcase Hrun IH].
  - simpl. split_and!; [set_solver | set_solver | constructor | constructor |].
    intros ta k tb Heq. by destruct ta.
  - destruct IH as (Hdom2 & Hnew2 & Hnd2 & Hev2 & Hov2).
    pose proof (update_pair_case_dom _ _ _ _ Hcase)
      as (Hdom1 & Hnew1 & Hnd1 & Hev1).
    rewrite created_keys_app. split_and!.
    + rewrite Hdom2, Hdom1, list_to_set_app_L. set_solver.
    + intros k [Hk|Hk]%elem_of_app.
      * destruct (Hnew1 k Hk) as (-> & Hnot & _). split; [|done].
        unfold wanted_keys. simpl. set_solver.
      * destruct (Hnew2 k Hk) as [Hw Hnot]. split.
        -- unfold wanted_keys in *. simpl. set_solver.
        -- rewrite Hdom1 in Hnot. set_solver.
    + apply NoDup_app. split_and!; [done | | done].
      intros k Hk1 Hk2. destruct (Hnew2 k Hk2) as [_ Hnot].
      rewrite Hdom1 in Hnot. set_solver.
    + by apply Forall_app.
    + intros ta k tb Heq k0 Hk0.
      destruct (created_keys t1) as [|k1 [|? ?]] eqn:Ht1.
      * simpl in Heq. eapply Hov2; [done|].
        rewrite Hdom1. set_solver.
      * destruct (Hnew1 k1) as (Hk1 & Hnot1 & Hok1); [set_solver|].
        destruct ta as [|k' ta]; simpl in Heq.
        -- injection Heq as -> _. rewrite ok_to_create_true in Hok1.
           rewrite Hk1, key_region_get_contract_key.
           apply Hok1. set_solver.
        -- injection Heq as <- Heq. eapply Hov2; [done|].
           rewrite Hdom1. set_solver.
      * exfalso. destruct Hcase; simpl in Ht1; done.
Qed.

(** ** Teardown *)

Lemma teardown_absent s key :
  executions s !! key = None → teardown key s = None.
Proof. intros Hk. unfold teardown, mbind, exec_bind. simpl. by rewrite Hk. Qed.

Lemma teardown_run s key d :
  executions s !! key = Some d →
  teardown key s =
    Some ((),
          set_executions (delete key (executions s))
            (set_ack_map (delete (server_id, contract_id d) (ack_map s)) s),
          [EvReset key; EvAckDelete (server_id, contract_id d); EvErase key]).
Proof.
  intros Hk. unfold teardown.
  erewrite (exec_bind_run get_state); [|done]. simpl. rewrite Hk.
  erewrite exec_bind_run; [|by apply reset_execution_run].
  erewrite exec_bind_run;
    [|by eapply delete_ack_of_run; simpl; apply lookup_insert_eq].
  rewrite erase_execution_run. simpl.
  unfold set_executions, set_ack_map. simpl. by rewrite delete_insert_eq.
Qed.

Lemma teardown_log_cons s key keys d :
  executions s !! key = Some d →
  teardown_log s (key :: keys) =
    [EvReset key; EvAckDelete (server_id, contract_id d); EvErase key] ++
    teardown_log s keys.
Proof. intros Hd. unfold teardown_log. simpl. by rewrite Hd. Qed.

Lemma teardown_log_ext s s' keys :
  (∀ k, k ∈ keys → executions s' !! k = executions s !! k) →
  teardown_log s' keys = teardown_log s keys.
Proof.
  induction keys as [|k keys IH]; intros Heq; [done|].
  unfold teardown_log in *. simpl. rewrite Heq by set_solver.
  f_equal. apply IH. intros k' Hk'. apply Heq. set_solver.
Qed.

(** The teardown of distinct keys that are all in [executions] succeeds; it
    removes exactly those entries, changes no other entry, and removes from
    the ack map only acks of the contract ids recorded for those keys. *)
Lemma teardown_loop_run keys s :
  NoDup keys →
  (∀ k, k ∈ keys → k ∈ dom (executions s)) →
  ∃ s', teardown_loop keys s = Some ((), s', teardown_log s keys) ∧
        (∀ k, executions s' !! k =
              if decide (k ∈ keys) then None else executions s !! k) ∧
        (∀ a, ack_map s' !! a = None ∨ ack_map s' !! a = ack_map s !! a) ∧
        (∀ k d, k ∈ keys → executions s !! k = Some d →
                ack_map s' !! (server_id, contract_id d) = None) ∧
        perfmon_counter s' = perfmon_counter s.
Proof.
  revert s. induction keys as [|key keys IH]; intros s Hnd Hin.
  - exists s. split_and!; try done.
    + by right.
    + set_solver.
  - apply NoDup_cons in Hnd as [Hnotin Hnd].
    assert (key ∈ dom (executions s)) as [d Hd]%elem_of_dom
      by (apply Hin; set_solver).
    pose proof (teardown_run _ _ _ Hd) as Hrun.
    set (s1 := set_executions _ _) in Hrun.
    destruct (IH s1 Hnd) as (s' & Hloop & Hex & Hack & Hgone & Hpc).
    { intros k Hk. subst s1. simpl. rewrite dom_delete_L.
      apply elem_of_difference. split; [apply Hin; set_solver|set_solver]. }
    exists s'. split_and!.
    + simpl. erewrite exec_bind_run; [|exact Hrun]. rewrite Hloop. simpl.
      rewrite Hd. simpl. do 5 f_equal. apply teardown_log_ext.
      intros k Hk. subst s1. simpl. apply lookup_delete_ne. set_solver.
    + intros k. rewrite Hex. subst s1. simpl.
      destruct (decide (k = key)) as [->|Hne].
      * rewrite lookup_delete_eq. repeat case_decide; set_solver.
      * rewrite lookup_delete_ne by done.
        repeat case_decide; set_solver.
    + intros a. destruct (Hack a) as [Ha|Ha]; [by left|]. rewrite Ha.
      subst s1. simpl. destruct (decide (a = (server_id, contract_id d)))
        as [->|Hne].
      * left. apply lookup_delete_eq.
      * right. by apply lookup_delete_ne.
    + intros k d' [->|Hk]%elem_of_cons Hd'.
      * assert (d' = d) as -> by congruence.
        destruct (Hack (server_id, contract_id d)) as [Ha|Ha]; [done|].
        rewrite Ha. subst s1. simpl. apply lookup_delete_eq.
      * eapply Hgone; [done|]. subst s1. simpl.
        rewrite lookup_delete_ne; [done|set_solver].
    + by rewrite Hpc.
Qed.

(** ** The whole pass *)

Lemma update_run contracts to_delete_out s s' t :
  update_loop_run contracts s s' t →
  update contracts to_delete_out s =
    Some (to_delete_out ∪
            filter (λ k, k ∉ wanted_keys contracts) (dom (executions s')),
          s', t).
Proof.
  intros Hrun. unfold update.
  erewrite exec_bind_run; [|by apply update_loop_run_exec]. simpl.
  by rewrite (right_id_L ∅ (∪)), app_nil_r.
Qed.

Lemma update_inv contracts to_delete_out s r s' t :
  update contracts to_delete_out s = Some (r, s', t) →
  update_loop_run contracts s s' t ∧
  r = to_delete_out ∪
        filter (λ k, k ∉ wanted_keys contracts) (dom (executions s')).
Proof.
  unfold update. intros (dd & s1 & t1 & t2 & Hloop & Hrest & ->)%exec_bind_Some.
  apply update_loop_inv in Hloop as [-> Hloop]. simpl in Hrest.
  injection Hrest as <- <- <-. rewrite app_nil_r.
  by rewrite (right_id_L ∅ (∪)).
Qed.

Lemma elem_of_wanted_keys contracts k :
  k ∈ wanted_keys contracts ↔
  ∃ new_pair, new_pair ∈ contracts ∧ k = get_contract_key new_pair.2.
Proof.
  unfold wanted_keys. rewrite elem_of_list_to_set, list_elem_of_fmap.
  split; intros (new_pair & ? & ?); exists new_pair; done.
Qed.

Lemma deletion_set_empty contracts s :
  filter (λ k, k ∉ wanted_keys contracts) (dom (executions s)) = ∅ ↔
  dom (executions s) ⊆ wanted_keys contracts.
Proof.
  split.
  - intros Hempty k Hk.
    destruct (decide (k ∈ wanted_keys contracts)) as [|Hnw]; [done|].
    exfalso. eapply (not_elem_of_empty (C:=gset key_t) k).
    rewrite <- Hempty. by apply elem_of_filter.
  - intros Hsub. apply set_eq. intros k. rewrite elem_of_filter. set_solver.
Qed.

Lemma iteration_order_NoDup (X : gset key_t) : NoDup (iteration_order X).
Proof. rewrite iteration_order_perm. apply NoDup_elements. Qed.

Lemma elem_of_iteration_order (X : gset key_t) k :
  k ∈ iteration_order X ↔ k ∈ X.
Proof. by rewrite iteration_order_perm, elem_of_elements. Qed.

(** A pass: the loop of [update], then the teardown of the keys that no
    contract asks for, then the notification of the pumper if there were
    any.  It succeeds whenever every entry holds a running execution. *)
Lemma update_blocking_run contracts s s1 t1 :
  update_loop_run contracts s s1 t1 →
  ∃ s2 t2,
    update_blocking contracts s = Some ((), s2, t1 ++ t2) ∧
    t2 = (if decide (dom (executions s1) ⊆ wanted_keys contracts) then []
          else teardown_log s1
                 (iteration_order
                    (filter (λ k, k ∉ wanted_keys contracts)
                            (dom (executions s1)))) ++ [EvNotify]) ∧
    (∀ k, executions s2 !! k =
          if decide (k ∈ wanted_keys contracts) then executions s1 !! k
          else None) ∧
    (∀ a, ack_map s2 !! a = None ∨ ack_map s2 !! a = ack_map s1 !! a) ∧
    (∀ k d, k ∉ wanted_keys contracts → executions s1 !! k = Some d →
            ack_map s2 !! (server_id, contract_id d) = None) ∧
    (dom (executions s1) ⊆ wanted_keys contracts → s2 = s1) ∧
    perfmon_counter s2 = perfmon_counter s1.
Proof.
  intros Hrun. unfold update_blocking.
  set (D := filter (λ k, k ∉ wanted_keys contracts) (dom (executions s1))).
  erewrite exec_bind_run; [|by apply update_run]. simpl.
  rewrite (left_id_L ∅ (∪)). fold D.
  assert (∀ k, k ∈ D ↔ k ∈ dom (executions s1) ∧ k ∉ wanted_keys contracts)
    as HD by (intros k; subst D; rewrite elem_of_filter; tauto).
  clearbody D.
  destruct (decide (dom (executions s1) ⊆ wanted_keys contracts)) as [Hsub|Hsub].
  - assert (D = ∅) as -> by set_solver.
    rewrite bool_decide_eq_false_2 by (by intros ?). simpl.
    exists s1, []. split_and!; try done.
    + intros k. case_decide; [done|].
      apply not_elem_of_dom. set_solver.
    + by right.
    + intros k d Hk Hd. apply elem_of_dom_2 in Hd. set_solver.
  - assert (D ≠ ∅) as Hne.
    { intros Hempty. apply Hsub. intros k Hk.
      destruct (decide (k ∈ wanted_keys contracts)); [done|].
      assert (k ∈ D) by set_solver. set_solver. }
    rewrite bool_decide_eq_true_2 by done.
    destruct (teardown_loop_run (iteration_order D) s1)
      as (s2 & Hloop & Hex & Hack & Hgone & Hpc).
    { apply iteration_order_NoDup. }
    { intros k Hk%elem_of_iteration_order. set_solver. }
    exists s2, (teardown_log s1 (iteration_order D) ++ [EvNotify]).
    split_and!; try done.
    + erewrite exec_bind_run; [|exact Hloop]. done.
    + intros k. rewrite Hex.
      destruct (decide (k ∈ wanted_keys contracts)) as [Hw|Hw].
      * rewrite decide_False; [done|].
        rewrite elem_of_iteration_order. set_solver.
      * case_decide; [done|]. apply not_elem_of_dom. intros Hk.
        rewrite elem_of_iteration_order in *. set_solver.
    + intros k d Hk Hd. eapply Hgone; [|done].
      apply elem_of_iteration_order. apply elem_of_dom_2 in Hd.
      set_solver.
Qed.

Lemma update_blocking_total contracts s :
  handles_live s → ∃ s' t, update_blocking contracts s = Some ((), s', t).
Proof.
  intros Hlive.
  destruct (update_loop_run_total contracts s Hlive) as (s1 & t1 & Hrun).
  destruct (update_blocking_run _ _ _ _ Hrun) as (s2 & t2 & Hub & _).
  by eexists _, _.
Qed.

Lemma teardown_log_app s keys1 keys2 :
  teardown_log s (keys1 ++ keys2) = teardown_log s keys1 ++ teardown_log s keys2.
Proof. unfold teardown_log. apply bind_app. Qed.

Lemma teardown_log_no_notify s keys : EvNotify ∉ teardown_log s keys.
Proof.
  induction keys as [|key keys IH]; [set_solver|].
  unfold teardown_log in *. simpl.
  destruct (executions s !! key); set_solver.
Qed.

Lemma teardown_log_other s keys key :
  key ∉ keys → (EvReset key ∉ teardown_log s keys) ∧
               (EvErase key ∉ teardown_log s keys).
Proof.
  induction keys as [|k keys IH]; [set_solver|].
  intros [Hne Hnotin]%not_elem_of_cons. destruct (IH Hnotin) as [IH1 IH2].
  unfold teardown_log in *. simpl.
  destruct (executions s !! k); set_solver.
Qed.

Lemma elem_of_teardown_log s keys ev :
  ev ∈ teardown_log s keys →
  ∃ key d, key ∈ keys ∧ executions s !! key = Some d ∧
           ev ∈ [EvReset key; EvAckDelete (server_id, contract_id d);
                 EvErase key].
Proof.
  unfold teardown_log. intros (key & Hev & Hkey)%list_elem_of_bind.
  destruct (executions s !! key) as [d|] eqn:Hd; [|set_solver].
  by exists key, d.
Qed.

Lemma teardown_inv s key x s' t :
  teardown key s = Some (x, s', t) →
  ∃ d, executions s !! key = Some d ∧
       s' = set_executions (delete key (executions s))
              (set_ack_map (delete (server_id, contract_id d) (ack_map s)) s) ∧
       t = [EvReset key; EvAckDelete (server_id, contract_id d); EvErase key].
Proof.
  destruct (executions s !! key) as [d|] eqn:Hk.
  - rewrite (teardown_run _ _ _ Hk). intros [= <- <- <-]. by exists d.
  - by rewrite teardown_absent.
Qed.

Lemma teardown_loop_dom keys s x s' t :
  teardown_loop keys s = Some (x, s', t) →
  dom (executions s') ⊆ dom (executions s).
Proof.
  revert s t. induction keys as [|key keys IH]; intros s t; simpl.
  - by intros [= <- <- <-].
  - intros (? & s1 & t1 & t2 & Ht & Hl & ->)%exec_bind_Some.
    apply teardown_inv in Ht as (d & Hd & -> & ->).
    apply IH in Hl. simpl in Hl. rewrite dom_delete_L in Hl. set_solver.
Qed.

Lemma update_blocking_inv contracts s x s' t :
  update_blocking contracts s = Some (x, s', t) →
  ∃ s1 t1 t2, update_loop_run contracts s s1 t1 ∧ t = t1 ++ t2 ∧
              dom (executions s') ⊆ dom (executions s1).
Proof.
  unfold update_blocking.
  intros (D & s1 & t1 & t2 & Hup & Hrest & ->)%exec_bind_Some.
  apply update_inv in Hup as [Hrun _]. exists s1, t1, t2.
  split_and!; [done | done |].
  destruct (bool_decide (D ≠ ∅)).
  - apply exec_bind_Some in Hrest as (? & s2 & ? & ? & Htd & Hlog & _).
    injection Hlog as _ <- _. by eapply teardown_loop_dom.
  - by injection Hrest as _ <- _.
Qed.

(** ** The deletion set *)

(** C6. With no key in [*to_delete_out] at the start, [update] returns for
    deletion exactly the keys of [executions] that are not the derived key
    of any contract of the mapping.  A key that some contract derives is not
    returned, whether or not the loop changed or created its entry.  The
    returned keys were in [executions] before the call, [update] removes no
    entry and resets or erases no execution. *)
Theorem update_deletion_set contracts s :
  handles_live s →
  ∃ to_delete s' t,
    update contracts ∅ s = Some (to_delete, s', t) ∧
    (∀ k, k ∈ to_delete ↔
          k ∈ dom (executions s') ∧
          ¬ ∃ new_pair, new_pair ∈ contracts ∧
                        k = get_contract_key new_pair.2) ∧
    (∀ k, k ∈ to_delete → k ∈ dom (executions s)) ∧
    dom (executions s) ⊆ dom (executions s') ∧
    Forall (λ ev, is_teardown_event ev = false) t.
Proof.
  intros Hlive.
  destruct (update_loop_run_total contracts s Hlive) as (s' & t & Hrun).
  eexists _, s', t. split; [by apply update_run|].
  destruct (update_loop_run_created _ _ _ _ Hrun)
    as (Hdom & Hnew & _ & Hev & _).
  rewrite (left_id_L ∅ (∪)). split_and!.
  - intros k. by rewrite elem_of_filter, elem_of_wanted_keys, (comm (∧)).
  - intros k [Hnw Hk]%elem_of_filter. rewrite Hdom in Hk.
    apply elem_of_union in Hk as [Hk|Hk]; [done|].
    apply elem_of_list_to_set in Hk. by destruct (Hnew k Hk).
  - rewrite Hdom. set_solver.
  - done.
Qed.

(** ** Teardown ordering *)

(** C2. A pass runs [update] and then tears down the returned keys, one
    after the other.  For each of them the log of the teardown contains, one
    directly after the other, the reset of the key's execution, the deletion
    of the ack of (server_id, contract id recorded for the key) and the
    erasure of the key's entry; the key is reset and erased once.  If some
    key was returned, the last action of the pass is the notification of
    the update pumper; if none was, the pass does nothing after [update].
    The log after [update] is exactly these triples, in the order in which
    the returned keys are iterated, followed by the notification: no other
    execution is reset, no other ack deleted and no other entry erased, and
    the entries of all other keys are as [update] left them. *)
Theorem teardown_ordering contracts s :
  handles_live s →
  ∃ to_delete s1 t1 s2 t2,
    update contracts ∅ s = Some (to_delete, s1, t1) ∧
    update_blocking contracts s = Some ((), s2, t1 ++ t2) ∧
    Forall (λ ev, is_teardown_event ev = false) t1 ∧
    (to_delete = ∅ → t2 = [] ∧ s2 = s1) ∧
    (to_delete ≠ ∅ → ∃ t2', t2 = t2' ++ [EvNotify] ∧ EvNotify ∉ t2') ∧
    (∀ key, key ∈ to_delete →
       ∃ d ta tb,
         executions s1 !! key = Some d ∧
         t2 = ta ++ [EvReset key;
                     EvAckDelete (server_id, contract_id d);
                     EvErase key] ++ tb ∧
         (EvReset key ∉ ta ++ tb) ∧ (EvErase key ∉ ta ++ tb) ∧
         executions s2 !! key = None ∧
         ack_map s2 !! (server_id, contract_id d) = None) ∧
    t2 = (if decide (to_delete = ∅) then []
          else teardown_log s1 (iteration_order to_delete) ++ [EvNotify]) ∧
    (∀ key, EvReset key ∈ t2 ∨ EvErase key ∈ t2 → key ∈ to_delete) ∧
    (∀ a, EvAckDelete a ∈ t2 →
       ∃ key d, key ∈ to_delete ∧ executions s1 !! key = Some d ∧
                a = (server_id, contract_id d)) ∧
    (∀ key, executions s2 !! key =
            if decide (key ∈ to_delete) then None else executions s1 !! key).
Proof.
  intros Hlive.
  destruct (update_loop_run_total contracts s Hlive) as (s1 & t1 & Hrun).
  destruct (update_blocking_run _ _ _ _ Hrun)
    as (s2 & t2 & Hub & Ht2 & Hex & _ & Hgone & Hsame & _).
  destruct (update_loop_run_created _ _ _ _ Hrun) as (_ & _ & _ & Hev & _).
  eexists _, s1, t1, s2, t2.
  split; [by apply update_run|]. rewrite (left_id_L ∅ (∪)).
  pose proof (deletion_set_empty contracts s1) as Hempty.
  set (D := filter (λ k, k ∉ wanted_keys contracts) (dom (executions s1)))
    in *.
  assert (∀ k, k ∈ D ↔ k ∈ dom (executions s1) ∧ k ∉ wanted_keys contracts)
    as HD by (intros k; subst D; rewrite elem_of_filter; tauto).
  assert (t2 = (if decide (D = ∅) then []
                else teardown_log s1 (iteration_order D) ++ [EvNotify]))
    as Hexact.
  { rewrite Ht2. destruct (decide (D = ∅)) as [HDe|HDe].
    - by rewrite decide_True by (by apply Hempty).
    - by rewrite decide_False by (by rewrite <- Hempty). }
  assert (∀ ev, ev ∈ t2 → ev = EvNotify ∨
            ∃ key d, key ∈ D ∧ executions s1 !! key = Some d ∧
              ev ∈ [EvReset key; EvAckDelete (server_id, contract_id d);
                    EvErase key]) as Hevents.
  { intros ev Hin. rewrite Hexact in Hin. case_decide; [set_solver|].
    apply elem_of_app in Hin as [Hin|Hin]; [|left; set_solver].
    right. apply elem_of_teardown_log in Hin as (key & d & Hkey & Hd & Hev').
    exists key, d. by rewrite elem_of_iteration_order in Hkey. }
  clearbody D. split_and!; [done | done | | | | done | | |].
  - intros HDe. apply Hempty in HDe. rewrite decide_True in Ht2 by done.
    split; [done|]. by apply Hsame.
  - intros Hne. rewrite decide_False in Ht2 by (by rewrite <- Hempty).
    eexists. split; [done|]. apply teardown_log_no_notify.
  - intros key Hkey.
    rewrite decide_False in Ht2
      by (rewrite <- Hempty; intros HDe; rewrite HDe in Hkey; set_solver).
    apply HD in Hkey as [[d Hd]%elem_of_dom Hnw].
    assert (key ∈ iteration_order D) as Hin
      by (apply elem_of_iteration_order, HD; split;
          [by apply elem_of_dom_2 in Hd|done]).
    pose proof (iteration_order_NoDup D) as Hnd.
    apply list_elem_of_split in Hin as (l1 & l2 & Hl). rewrite Hl in Hnd, Ht2.
    apply NoDup_app in Hnd as (_ & Hl1 & [Hl2 _]%NoDup_cons).
    exists d, (teardown_log s1 l1), (teardown_log s1 l2 ++ [EvNotify]).
    split_and!.
    + done.
    + rewrite Ht2, teardown_log_app, (teardown_log_cons _ _ _ _ Hd).
      by rewrite <- !(assoc_L (++)).
    + destruct (teardown_log_other s1 l1 key) as [? _]; [set_solver|].
      destruct (teardown_log_other s1 l2 key) as [? _]; [done|].
      set_solver.
    + destruct (teardown_log_other s1 l1 key) as [_ ?]; [set_solver|].
      destruct (teardown_log_other s1 l2 key) as [_ ?]; [done|].
      set_solver.
    + rewrite Hex. by rewrite decide_False.
    + by eapply Hgone.
  - intros key [Hin|Hin];
      apply Hevents in Hin as [?|(key' & d & Hkey & _ & Hev')]; try done;
      set_solver.
  - intros a Hin.
    apply Hevents in Hin as [?|(key' & d & Hkey & Hd & Hev')]; [done|].
    exists key', d. split_and!; [done | done | set_solver].
  - intros key. rewrite Hex.
    destruct (decide (key ∈ wanted_keys contracts)) as [Hw|Hw].
    + rewrite decide_False; [done|]. rewrite HD. tauto.
    + destruct (executions s1 !! key) as [d|] eqn:Hd.
      * rewrite decide_True; [done|]. apply HD.
        split; [by apply elem_of_dom_2 in Hd|done].
      * by destruct (decide (key ∈ D)).
Qed.

(** ** The no-overlap invariant *)

Lemma no_overlap_mono s s' :
  dom (executions s') ⊆ dom (executions s) → no_overlap s → no_overlap s'.
Proof. intros Hsub Hinv k1 k2 Hk1 Hk2. apply Hinv; by apply Hsub. Qed.

Lemma update_pair_case_no_overlap s new_pair s' t :
  (∀ a b, region_overlaps a b = region_overlaps b a) →
  update_pair_case s new_pair s' t → no_overlap s → no_overlap s'.
Proof.
  intros Hsym Hcase Hinv.
  destruct Hcase as [d Hk Hc|d e Hk Hc He|Hk Hok|Hk Hok]; try done.
  - eapply no_overlap_mono; [|done]. simpl. rewrite dom_insert_L.
    apply elem_of_dom_2 in Hk. set_solver.
  - rewrite ok_to_create_true in Hok.
    rewrite <- (key_region_get_contract_key new_pair.2) in Hok.
    intros k1 k2. simpl. rewrite dom_insert_L, !elem_of_union, !elem_of_singleton.
    intros [->|Hk1] [->|Hk2] Hne; [done | | | by apply Hinv].
    + rewrite Hsym. by apply Hok.
    + by apply Hok.
Qed.

Lemma update_loop_run_no_overlap contracts s s' t :
  (∀ a b, region_overlaps a b = region_overlaps b a) →
  update_loop_run contracts s s' t → no_overlap s → no_overlap s'.
Proof.
  intros Hsym. induction 1; eauto using update_pair_case_no_overlap.
Qed.

(** C1. The regions of the keys of [executions] are pairwise
    non-overlapping in a freshly constructed executor, and from a state in
    which they are, they remain so after every loop body of [update], hence
    after the loop over any list of contracts, after each step of a
    teardown (reset, ack deletion, erasure), after the teardown of any keys
    and after a whole pass.  The loop body does nothing for a contract whose
    key has no entry and whose region overlaps the region of a key in
    [executions]. *)
Theorem no_overlap_invariant :
  (∀ a b, region_overlaps a b = region_overlaps b a) →
  no_overlap (empty_state : state_t) ∧
  ∀ s, no_overlap s →
  (∀ new_pair x s' t,
     update_pair new_pair s = Some (x, s', t) → no_overlap s') ∧
  (∀ contracts dont_delete r s' t,
     update_loop contracts dont_delete s = Some (r, s', t) → no_overlap s') ∧
  (∀ key x s' t,
     reset_execution key s = Some (x, s', t) ∨
     delete_ack_of key s = Some (x, s', t) ∨
     erase_execution key s = Some (x, s', t) → no_overlap s') ∧
  (∀ keys x s' t, teardown_loop keys s = Some (x, s', t) → no_overlap s') ∧
  (∀ contracts x s' t,
     update_blocking contracts s = Some (x, s', t) → no_overlap s') ∧
  (∀ new_pair k,
     executions s !! get_contract_key new_pair.2 = None →
     k ∈ dom (executions s) →
     region_overlaps (key_region k) new_pair.2.1 = true →
     update_pair new_pair s = Some ((), s, [])).
Proof.
  intros Hsym. split; [intros k1 k2 Hk1; set_solver|].
  intros s Hinv. split_and!.
  - intros new_pair x s' t Hrun%update_pair_inv.
    by eapply update_pair_case_no_overlap.
  - intros contracts dont_delete r s' t [_ Hrun]%update_loop_inv.
    by eapply update_loop_run_no_overlap.
  - intros key x s' t Hstep. eapply no_overlap_mono; [|done].
    destruct Hstep as [Hstep|[Hstep|Hstep]].
    + destruct (executions s !! key) as [d|] eqn:Hk.
      * rewrite (reset_execution_run _ _ _ Hk) in Hstep.
        injection Hstep as _ <- _. simpl. rewrite dom_insert_L.
        apply elem_of_dom_2 in Hk. set_solver.
      * unfold reset_execution, mbind, exec_bind in Hstep. simpl in Hstep.
        by rewrite Hk in Hstep.
    + destruct (executions s !! key) as [d|] eqn:Hk.
      * rewrite (delete_ack_of_run _ _ _ Hk) in Hstep.
        by injection Hstep as _ <- _.
      * unfold delete_ack_of, mbind, exec_bind in Hstep. simpl in Hstep.
        by rewrite Hk in Hstep.
    + rewrite erase_execution_run in Hstep. injection Hstep as _ <- _.
      simpl. rewrite dom_delete_L. set_solver.
  - intros keys x s' t Hrun%teardown_loop_dom. by eapply no_overlap_mono.
  - intros contracts x s' t (s1 & t1 & t2 & Hrun & _ & Hsub)%update_blocking_inv.
    eapply no_overlap_mono; [done|]. by eapply update_loop_run_no_overlap.
  - intros new_pair k Hk Hin Hov. apply update_pair_blocked; [done|].
    apply ok_to_create_false. by exists k.
Qed.

(** ** Overlapping contracts in one mapping *)

Lemma update_loop_run_app contracts1 contracts2 s s' t :
  update_loop_run (contracts1 ++ contracts2) s s' t ↔
  ∃ s1 t1 t2, update_loop_run contracts1 s s1 t1 ∧
              update_loop_run contracts2 s1 s' t2 ∧ t = t1 ++ t2.
Proof.
  revert s t. induction contracts1 as [|new_pair rest IH]; intros s t; simpl.
  - split.
    + intros Hrun. exists s, [], t. split; [constructor|done].
    + intros (s1 & t1 & t2 & Hnil & Hrun & ->). by inversion Hnil; subst.
  - split.
    + inversion 1 as [|? ? ? s1 t1 ? t2 Hcase Hrun]; subst.
      apply IH in Hrun as (s2 & t2a & t2b & Hr1 & Hr2 & ->).
      exists s2, (t1 ++ t2a), t2b.
      split; [by econstructor|]. split; [done|]. by rewrite (assoc_L (++)).
    + intros (s1 & t1 & t2 & Hr1 & Hr2 & ->).
      inversion Hr1 as [|? ? ? s0 t0 ? t0' Hcase Hrun]; subst.
      rewrite <- (assoc_L (++)). econstructor; [done|].
      apply IH. by eexists _, _, _.
Qed.

(** C9, as the code has it.  The overlap test of the loop body runs over
    [executions] as it is when the contract is examined, which holds the
    keys present before the pass together with the keys created earlier in
    the pass: after a prefix of the contracts the key set is exactly that,
    and the next contract's execution is created if and only if its key is
    absent from this set and its region overlaps the region of none of its
    keys.  So of two executions created in one pass, the region of the one
    created first does not overlap the region of the one created later. *)
Theorem overlap_guard_sees_created contracts1 dont_delete new_pair
    s r s1 t1 x s2 t2 :
  update_loop contracts1 dont_delete s = Some (r, s1, t1) →
  update_pair new_pair s1 = Some (x, s2, t2) →
  dom (executions s1) = dom (executions s) ∪ list_to_set (created_keys t1) ∧
  (get_contract_key new_pair.2 ∈ created_keys t2 ↔
     (get_contract_key new_pair.2 ∉ dom (executions s)) ∧
     (get_contract_key new_pair.2 ∉ created_keys t1) ∧
     ∀ k, k ∈ dom (executions s) ∨ k ∈ created_keys t1 →
          region_overlaps (key_region k) new_pair.2.1 = false) ∧
  (∀ k, k ∈ created_keys t1 → get_contract_key new_pair.2 ∈ created_keys t2 →
        region_overlaps (key_region k)
          (key_region (get_contract_key new_pair.2)) = false).
Proof.
  intros [_ Hrun]%update_loop_inv Hcase%update_pair_inv.
  destruct (update_loop_run_created _ _ _ _ Hrun) as (Hdom & _).
  assert (get_contract_key new_pair.2 ∈ created_keys t2 ↔
          (get_contract_key new_pair.2 ∉ dom (executions s1)) ∧
          ok_to_create (executions s1) new_pair.2.1 = true) as Hiff.
  { destruct Hcase as [d Hk Hc|d e Hk Hc He|Hk Hok|Hk Hok]; simpl.
    - apply elem_of_dom_2 in Hk. set_solver.
    - apply elem_of_dom_2 in Hk. set_solver.
    - apply not_elem_of_dom in Hk. rewrite Hok. set_solver.
    - apply not_elem_of_dom in Hk. set_solver. }
  assert (get_contract_key new_pair.2 ∈ created_keys t2 ↔
     (get_contract_key new_pair.2 ∉ dom (executions s)) ∧
     (get_contract_key new_pair.2 ∉ created_keys t1) ∧
     ∀ k, k ∈ dom (executions s) ∨ k ∈ created_keys t1 →
          region_overlaps (key_region k) new_pair.2.1 = false) as Hiff'.
  { rewrite Hiff, ok_to_create_true, Hdom. split.
    - intros [Hnot Hall]. split_and!; [set_solver | set_solver |].
      intros k Hk. apply Hall. set_solver.
    - intros (Hn1 & Hn2 & Hall). split; [set_solver|].
      intros k Hk. apply Hall. set_solver. }
  split_and!; [done | done |].
  intros k Hk Hcr. apply Hiff' in Hcr as (_ & _ & Hall).
  rewrite key_region_get_contract_key. apply Hall. by right.
Qed.

Lemma elem_of_two_split {A} (l : list A) (x y : A) :
  x ∈ l → y ∈ l → x ≠ y →
  (∃ la lb, l = la ++ y :: lb ∧ x ∈ la) ∨
  (∃ la lb, l = la ++ x :: lb ∧ y ∈ la).
Proof.
  intros Hx Hy Hne.
  apply list_elem_of_split in Hy as (la & lb & ->).
  apply elem_of_app in Hx as [Hx|Hx].
  - left. by exists la, lb.
  - apply elem_of_cons in Hx as [->|Hx]; [done|].
    apply list_elem_of_split in Hx as (lc & ld & ->).
    right. exists (la ++ y :: lc), ld. split.
    + by rewrite <- (assoc_L (++)).
    + set_solver.
Qed.

(** C8, as the code has it.  Take two contracts of one mapping whose derived
    keys have overlapping regions and have no entry when the pass starts.
    The pass constructs at most one execution for these keys.  When the keys
    differ, at most one of them has an entry after the loop; so when the
    execution of one contract is created, the other contract gets none in
    this pass. *)
Theorem tie_break_one_creation contracts dont_delete s r s' t
    new_pair1 new_pair2 :
  (∀ a b, region_overlaps a b = region_overlaps b a) →
  update_loop contracts dont_delete s = Some (r, s', t) →
  new_pair1 ∈ contracts → new_pair2 ∈ contracts →
  get_contract_key new_pair1.2 ∉ dom (executions s) →
  get_contract_key new_pair2.2 ∉ dom (executions s) →
  region_overlaps (key_region (get_contract_key new_pair1.2))
                  (key_region (get_contract_key new_pair2.2)) = true →
  length (filter (λ k, k = get_contract_key new_pair1.2 ∨
                       k = get_contract_key new_pair2.2)
                 (created_keys t)) ≤ 1 ∧
  (get_contract_key new_pair1.2 ≠ get_contract_key new_pair2.2 →
   ¬ (get_contract_key new_pair1.2 ∈ dom (executions s') ∧
      get_contract_key new_pair2.2 ∈ dom (executions s'))) ∧
  (get_contract_key new_pair1.2 ≠ get_contract_key new_pair2.2 →
   get_contract_key new_pair1.2 ∈ dom (executions s') →
   (get_contract_key new_pair2.2 ∉ dom (executions s')) ∧
   (get_contract_key new_pair2.2 ∉ created_keys t)) ∧
  (∀ contracts1 contracts2 r1 s1 t1,
     contracts = contracts1 ++ new_pair1 :: contracts2 →
     update_loop contracts1 dont_delete s = Some (r1, s1, t1) →
     get_contract_key new_pair1.2 ∉ dom (executions s1) →
     ok_to_create (executions s1) new_pair1.2.1 = true →
     get_contract_key new_pair1.2 ∈ created_keys t ∧
     (get_contract_key new_pair1.2 ≠ get_contract_key new_pair2.2 →
      get_contract_key new_pair2.2 ∉ dom (executions s'))).
Proof.
  intros Hsym [_ Hrun]%update_loop_inv _ _.
  set (k1 := get_contract_key new_pair1.2).
  set (k2 := get_contract_key new_pair2.2).
  intros Hk1 Hk2 Hov.
  destruct (update_loop_run_created _ _ _ _ Hrun)
    as (Hdom & Hnew & Hnd & _ & Hord).
  assert (k1 ≠ k2 → ¬ (k1 ∈ created_keys t ∧ k2 ∈ created_keys t)) as Hboth.
  { intros Hne [Hc1 Hc2].
    destruct (elem_of_two_split _ _ _ Hc1 Hc2 Hne)
      as [(la & lb & Heq & Hin)|(la & lb & Heq & Hin)].
    - rewrite (Hord la k2 lb Heq k1) in Hov; [done|by right].
    - rewrite Hsym, (Hord la k1 lb Heq k2) in Hov; [done|by right]. }
  assert (∀ k, k ∉ dom (executions s) → k ∈ dom (executions s') →
               k ∈ created_keys t) as Hcr.
  { intros k Hnot Hin. rewrite Hdom in Hin. set_solver. }
  split_and!.
  - destruct (decide (k1 = k2)) as [Heq|Hne].
    + apply (submseteq_length _ [k1]). apply NoDup_submseteq.
      * by apply NoDup_filter.
      * intros k [Hk _]%list_elem_of_filter. set_solver.
    + destruct (decide (k1 ∈ created_keys t)) as [Hc1|Hc1].
      * apply (submseteq_length _ [k1]). apply NoDup_submseteq.
        -- by apply NoDup_filter.
        -- intros k [[->| ->] Hk]%list_elem_of_filter; [set_solver|].
           destruct (Hboth Hne). done.
      * apply (submseteq_length _ [k2]). apply NoDup_submseteq.
        -- by apply NoDup_filter.
        -- intros k [[->| ->] Hk]%list_elem_of_filter; [done|set_solver].
  - intros Hne [Hin1 Hin2]. apply (Hboth Hne). split; by apply Hcr.
  - intros Hne Hin1. split.
    + intros Hin2. apply (Hboth Hne). split; by apply Hcr.
    + intros Hc2. apply (Hboth Hne). split; [by apply Hcr|done].
  - intros contracts1 contracts2 r1 s1 t1 -> Hpre Hnot1 Hok.
    apply update_loop_run_app in Hrun as (sa & ta & tb & Hra & Hrb & ->).
    rewrite (update_loop_run_exec _ dont_delete _ _ _ Hra) in Hpre.
    injection Hpre as _ <- <-.
    inversion Hrb as [|? ? ? sb tb1 ? tb2 Hcase Hrest]; subst.
    assert (k1 ∈ created_keys tb1) as Hc1.
    { inversion Hcase as [d Hk _|d e Hk _ _|Hk Hok'|Hk _]; subst.
      - apply elem_of_dom_2 in Hk. done.
      - apply elem_of_dom_2 in Hk. done.
      - congruence.
      - simpl. set_solver. }
    assert (k1 ∈ created_keys (ta ++ tb1 ++ tb2)) as Hc
      by (rewrite !created_keys_app; set_solver).
    split; [done|]. intros Hne Hin2. apply (Hboth Hne).
    split; [done|by apply Hcr].
Qed.

(** ** Convergence *)

Lemma ok_to_create_false_mono (m m' : gmap key_t (execution_data_t region_t))
    (region : region_t) :
  dom m ⊆ dom m' → ok_to_create m region = false →
  ok_to_create m' region = false.
Proof.
  rewrite !ok_to_create_false. intros Hsub (k & Hk & Hov).
  exists k. split; [by apply Hsub|done].
Qed.

Lemma ok_to_create_dom (m m' : gmap key_t (execution_data_t region_t))
    (region : region_t) :
  dom m = dom m' → ok_to_create m region = ok_to_create m' region.
Proof.
  intros Hdom. destruct (ok_to_create m region) eqn:Hm.
  - symmetry. rewrite ok_to_create_true in *. by rewrite <- Hdom.
  - symmetry. eapply ok_to_create_false_mono; [|done]. by rewrite Hdom.
Qed.

Lemma update_loop_run_dom_mono contracts s s' t :
  update_loop_run contracts s s' t →
  dom (executions s) ⊆ dom (executions s').
Proof.
  intros (Hdom & _)%update_loop_run_created. rewrite Hdom. set_solver.
Qed.

Lemma update_pair_case_dom_mono s new_pair s' t :
  update_pair_case s new_pair s' t →
  dom (executions s) ⊆ dom (executions s').
Proof.
  intros (Hdom & _)%update_pair_case_dom. rewrite Hdom. set_solver.
Qed.

(** After the loop, every contract has its key in [executions] or is
    refused by the overlap test. *)
Lemma update_loop_run_saturated contracts s s' t :
  update_loop_run contracts s s' t → saturated contracts s'.
Proof.
  induction 1 as [s|new_pair rest s s1 t1 s2 t2 Hcase Hrun IH].
  - intros new_pair Hin. set_solver.
  - pose proof (update_loop_run_dom_mono _ _ _ _ Hrun) as Hmono.
    intros p [->|Hin]%elem_of_cons; [|by apply IH].
    destruct Hcase as [d Hk Hc|d e Hk Hc He|Hk Hok|Hk Hok].
    + left. apply Hmono. by apply elem_of_dom_2 in Hk.
    + left. apply Hmono. simpl. rewrite dom_insert_L. set_solver.
    + right. by eapply ok_to_create_false_mono.
    + left. apply Hmono. simpl. rewrite dom_insert_L. set_solver.
Qed.

(** Where every contract has its key in [executions] or is refused, the
    loop creates nothing. *)
Lemma update_loop_run_no_creation contracts s s' t :
  update_loop_run contracts s s' t →
  (∀ new_pair, new_pair ∈ contracts →
     get_contract_key new_pair.2 ∈ dom (executions s) ∨
     ok_to_create (executions s) new_pair.2.1 = false) →
  created_keys t = [] ∧ dom (executions s') = dom (executions s).
Proof.
  induction 1 as [s|new_pair rest s s1 t1 s2 t2 Hcase Hrun IH]; [done|].
  intros Hsat.
  assert (created_keys t1 = [] ∧ dom (executions s1) = dom (executions s))
    as [Ht1 Hdom1].
  { destruct Hcase as [d Hk Hc|d e Hk Hc He|Hk Hok|Hk Hok]; try done.
    - split; [done|]. simpl. rewrite dom_insert_L.
      apply elem_of_dom_2 in Hk. set_solver.
    - destruct (Hsat new_pair) as [Hin|Hno]; [set_solver| |congruence].
      by apply not_elem_of_dom in Hk. }
  destruct IH as [Ht2 Hdom2].
  { intros p Hp. rewrite Hdom1, (ok_to_create_dom _ (executions s)) by done.
    apply Hsat. set_solver. }
  by rewrite created_keys_app, Ht1, Ht2, Hdom2.
Qed.

(** The loop only touches entries whose key is derived from one of the
    contracts. *)
Lemma update_loop_run_untouched contracts s s' t k :
  update_loop_run contracts s s' t →
  k ∉ wanted_keys contracts →
  executions s' !! k = executions s !! k.
Proof.
  induction 1 as [s|new_pair rest s s1 t1 s2 t2 Hcase Hrun IH]; [done|].
  intros Hk. unfold wanted_keys in Hk. simpl in Hk.
  rewrite IH by (unfold wanted_keys; set_solver).
  destruct Hcase; try done; simpl; apply lookup_insert_ne; set_solver.
Qed.

(** When no two contracts derive the same key, every entry whose key is
    derived from a contract records that contract's id after the loop. *)
Lemma update_loop_run_up_to_date contracts s s' t :
  update_loop_run contracts s s' t →
  NoDup ((λ new_pair, get_contract_key new_pair.2) <$> contracts) →
  up_to_date contracts s'.
Proof.
  induction 1 as [s|new_pair rest s s1 t1 s2 t2 Hcase Hrun IH].
  - intros _ new_pair d Hin. set_solver.
  - rewrite fmap_cons. intros [Hnotin Hnd]%NoDup_cons p d Hp Hd.
    apply elem_of_cons in Hp as [->|Hp]; [|by eapply IH].
    rewrite (update_loop_run_untouched _ _ _ _ _ Hrun) in Hd
      by (unfold wanted_keys; set_solver).
    destruct Hcase as [d' Hk Hc|d' e Hk Hc He|Hk Hok|Hk Hok].
    + congruence.
    + simpl in Hd. rewrite lookup_insert_eq in Hd. by injection Hd as <-.
    + congruence.
    + simpl in Hd. rewrite lookup_insert_eq in Hd. by injection Hd as <-.
Qed.

(** Where every contract either finds its own id recorded for its key or is
    refused by the overlap test, the loop does nothing. *)
Lemma update_loop_run_idle contracts s s' t :
  update_loop_run contracts s s' t →
  (∀ new_pair, new_pair ∈ contracts →
     (∃ d, executions s !! get_contract_key new_pair.2 = Some d ∧
           contract_id d = new_pair.1) ∨
     (executions s !! get_contract_key new_pair.2 = None ∧
      ok_to_create (executions s) new_pair.2.1 = false)) →
  s' = s ∧ t = [].
Proof.
  induction 1 as [s|new_pair rest s s1 t1 s2 t2 Hcase Hrun IH]; [done|].
  intros Hidle.
  assert (s1 = s ∧ t1 = []) as [-> ->].
  { destruct (Hidle new_pair) as [(d0 & Hd0 & Hc0)|[Hn0 Hok0]]; [set_solver| |];
      destruct Hcase as [d Hk Hc|d e Hk Hc He|Hk Hok|Hk Hok];
      try done; congruence. }
  apply IH. intros p Hp. apply Hidle. set_solver.
Qed.


(** After a pass, every remaining key is derived from a contract. *)
Lemma pass_settles contracts s :
  handles_live s →
  ∃ s' t, update_blocking contracts s = Some ((), s', t) ∧
          handles_live s' ∧ settled contracts s'.
Proof.
  intros Hlive.
  destruct (update_loop_run_total contracts s Hlive) as (s1 & t1 & Hrun).
  destruct (update_blocking_run _ _ _ _ Hrun) as (s2 & t2 & Hub & _ & Hex & _).
  exists s2, (t1 ++ t2). split_and!; [done | |].
  - intros k d Hd. rewrite Hex in Hd. case_decide; [|done].
    by eapply (update_loop_run_handles_live _ _ _ _ Hrun).
  - intros k [d Hd]%elem_of_dom. rewrite Hex in Hd. by case_decide.
Qed.

(** Once every key is derived from a contract, a pass is the loop of
    [update] alone: nothing is torn down and the pumper is not notified. *)
Lemma pass_from_settled contracts s s1 t1 :
  settled contracts s → update_loop_run contracts s s1 t1 →
  update_blocking contracts s = Some ((), s1, t1) ∧ settled contracts s1.
Proof.
  intros Hset Hrun.
  assert (settled contracts s1) as Hset1.
  { destruct (update_loop_run_created _ _ _ _ Hrun) as (Hdom & Hnew & _).
    unfold settled in *. rewrite Hdom. intros k [Hk|Hk]%elem_of_union.
    - by apply Hset.
    - apply elem_of_list_to_set in Hk. by destruct (Hnew k Hk). }
  destruct (update_blocking_run _ _ _ _ Hrun)
    as (s2 & t2 & Hub & Ht2 & _ & _ & _ & Hsame & _).
  rewrite decide_True in Ht2 by done. subst t2.
  rewrite (Hsame Hset1), app_nil_r in Hub. done.
Qed.

Lemma pass_stable contracts s :
  stable contracts s →
  ∃ s' t, update_blocking contracts s = Some ((), s', t) ∧
          update contracts ∅ s = Some (∅, s', t) ∧
          stable contracts s' ∧
          dom (executions s') = dom (executions s) ∧
          created_keys t = [] ∧
          Forall (λ ev, is_teardown_event ev = false) t.
Proof.
  intros (Hlive & Hset & Hsat).
  destruct (update_loop_run_total contracts s Hlive) as (s1 & t1 & Hrun).
  destruct (pass_from_settled _ _ _ _ Hset Hrun) as [Hub Hset1].
  destruct (update_loop_run_no_creation _ _ _ _ Hrun Hsat) as [Hcr Hdom].
  destruct (update_loop_run_created _ _ _ _ Hrun) as (_ & _ & _ & Hev & _).
  exists s1, t1. split_and!; try done.
  - rewrite (update_run _ _ _ _ _ Hrun), (left_id_L ∅ (∪)).
    by rewrite (proj2 (deletion_set_empty contracts s1)).
  - split_and!; [|done|].
    + by eapply update_loop_run_handles_live.
    + by eapply update_loop_run_saturated.
Qed.

Lemma passes_stable contracts s n :
  stable contracts s →
  ∃ s' t, update_blocking_n n contracts s = Some ((), s', t) ∧
          stable contracts s' ∧
          dom (executions s') = dom (executions s) ∧
          created_keys t = [] ∧
          Forall (λ ev, is_teardown_event ev = false) t.
Proof.
  revert s. induction n as [|n IH]; intros s Hst.
  - exists s, []. by split_and!.
  - destruct (pass_stable _ _ Hst) as (s1 & t1 & Hub & _ & Hst1 & Hdom1 & Hc1 & He1).
    destruct (IH s1 Hst1) as (s2 & t2 & Hn & Hst2 & Hdom2 & Hc2 & He2).
    exists s2, (t1 ++ t2). split_and!.
    + simpl. erewrite exec_bind_run; [|exact Hub]. by rewrite Hn.
    + done.
    + by rewrite Hdom2.
    + by rewrite created_keys_app, Hc1, Hc2.
    + by apply Forall_app.
Qed.



(** ** Key derivation *)

(** C4. [get_contract_key] is a total function of the server id and the
    (region, contract) pair.  Its result always carries the contract's
    region.  If the contract has a primary whose server is this server, the
    role is primary and the key's primary and branch are nil.  Otherwise, if
    this server is among the replicas, the role is secondary, the key's
    primary is the contract's primary server (nil when there is none) and the
    key's branch is the contract's branch.  Otherwise the role is erase and
    primary and branch are nil. *)
Theorem get_contract_key_spec (region : region_t) (c : contract_t) :
  key_region (get_contract_key (region, c)) = region ∧
  ((∃ p, primary c = Some p ∧ server p = server_id) →
     get_contract_key (region, c) =
       {| key_region := region; key_role := role_primary;
          key_primary := nil_uuid; key_branch := nil_uuid |}) ∧
  (¬ (∃ p, primary c = Some p ∧ server p = server_id) →
   server_id ∈ replicas c →
     get_contract_key (region, c) =
       {| key_region := region; key_role := role_secondary;
          key_primary := from_option server nil_uuid (primary c);
          key_branch := branch c |}) ∧
  (¬ (∃ p, primary c = Some p ∧ server p = server_id) →
   server_id ∉ replicas c →
     get_contract_key (region, c) =
       {| key_region := region; key_role := role_erase;
          key_primary := nil_uuid; key_branch := nil_uuid |}).
Proof.
  unfold get_contract_key; simpl.
  destruct (primary c) as [p|] eqn:Hp; simpl.
  - destruct (bool_decide_reflect (server p = server_id)) as [Hs|Hs].
    + repeat split; try done; intros Hn; exfalso; apply Hn; eauto.
    + destruct (bool_decide_reflect (server_id ∈ replicas c)) as [Hr|Hr];
        repeat split; try done; intros (p' & [= <-] & Hs'); done.
  - destruct (bool_decide_reflect (server_id ∈ replicas c)) as [Hr|Hr];
      repeat split; try done; intros (p' & [=] & _).
Qed.

(** * Further properties of the executor *)

(** ** When two contracts derive the same key *)

Lemma get_contract_key_fields (pair : region_t * contract_t) :
  get_contract_key pair =
    {| key_region := pair.1;
       key_role := key_role (get_contract_key pair);
       key_primary :=
         match key_role (get_contract_key pair) with
         | role_secondary => from_option server nil_uuid (primary pair.2)
         | _ => nil_uuid
         end;
       key_branch :=
         match key_role (get_contract_key pair) with
         | role_secondary => branch pair.2
         | _ => nil_uuid
         end |}.
Proof.
  unfold get_contract_key.
  destruct (primary pair.2) as [p|]; simpl;
    repeat (case_bool_decide; simpl); done.
Qed.

(** X1. Two (region, contract) pairs derive the same key exactly when
    they have the same region and the same role for this server and, if the
    role is secondary, the same primary server (nil when there is none) and
    the same branch.  Replicas, and for the primary and erase roles the
    branch and the primary, do not enter the key. *)
Theorem get_contract_key_eq (r1 r2 : region_t) (c1 c2 : contract_t) :
  get_contract_key (r1, c1) = get_contract_key (r2, c2) ↔
  r1 = r2 ∧
  key_role (get_contract_key (r1, c1)) = key_role (get_contract_key (r2, c2)) ∧
  (key_role (get_contract_key (r1, c1)) = role_secondary →
     from_option server nil_uuid (primary c1) =
       from_option server nil_uuid (primary c2) ∧
     branch c1 = branch c2).
Proof.
  rewrite (get_contract_key_fields (r1, c1)), (get_contract_key_fields (r2, c2)).
  simpl. generalize (key_role (get_contract_key (r1, c1))),
                    (key_role (get_contract_key (r2, c2))).
  intros ro1 ro2. split.
  - intros [= -> -> Hp Hb]. split_and!; [done | done |].
    intros ->. done.
  - intros (-> & -> & Hsec). destruct ro2; try done.
    destruct Hsec as [-> ->]; done.
Qed.

(** ** Series of acks *)

Lemma last_ack_for_cons cid (a : contract_id_t * contract_ack_t) acks :
  last_ack_for cid (a :: acks) =
    match last_ack_for cid acks with
    | Some ack => Some ack
    | None => if decide (a.1 = cid) then Some a.2 else None
    end.
Proof.
  unfold last_ack_for. rewrite filter_cons. case_decide.
  - rewrite last_cons. by destruct (last (filter _ acks)).
  - by destruct (last (filter _ acks)).
Qed.

Lemma send_acks_run acks s key d :
  executions s !! key = Some d →
  ∃ t, send_acks key acks s =
         Some ((),
               set_ack_map
                 (match last_ack_for (contract_id d) acks with
                  | Some ack => <[(server_id, contract_id d) := ack]> (ack_map s)
                  | None => ack_map s
                  end) s,
               t).
Proof.
  revert s. induction acks as [|a acks IH]; intros s Hk.
  - exists []. by destruct s.
  - rewrite last_ack_for_cons. simpl.
    destruct (decide (a.1 = contract_id d)) as [Ha|Ha].
    + erewrite exec_bind_run; [|by apply (send_ack_current _ _ _ _ d)].
      destruct (IH (set_ack_map (<[(server_id, a.1) := a.2]> (ack_map s)) s))
        as [t Ht]; [done|].
      rewrite Ht. simpl. eexists. do 3 f_equal. rewrite Ha.
      destruct (last_ack_for (contract_id d) acks); [|done].
      unfold set_ack_map. simpl. by rewrite insert_insert_eq.
    + erewrite exec_bind_run; [|by apply (send_ack_stale _ _ _ _ d)].
      destruct (IH s Hk) as [t Ht]. rewrite Ht. simpl. eexists.
      by destruct (last_ack_for (contract_id d) acks).
Qed.

(** X2. Last write wins.  After any series of [send_ack] calls for a key
    that has an entry, the ack stored for (server_id, recorded contract id)
    is the last ack of the series sent with the recorded id, or what was
    stored before if there is none; every other ack of the map and every
    entry of [executions] is as before. *)
Theorem send_acks_last_write_wins acks s key d :
  executions s !! key = Some d →
  ∃ s' t,
    send_acks key acks s = Some ((), s', t) ∧
    executions s' = executions s ∧
    ack_map s' !! (server_id, contract_id d) =
      match last_ack_for (contract_id d) acks with
      | Some ack => Some ack
      | None => ack_map s !! (server_id, contract_id d)
      end ∧
    ∀ a, a ≠ (server_id, contract_id d) → ack_map s' !! a = ack_map s !! a.
Proof.
  intros Hk. destruct (send_acks_run acks s key d Hk) as [t Ht].
  eexists _, t. split; [exact Ht|]. simpl. split; [done|].
  destruct (last_ack_for (contract_id d) acks) as [ack|]; simpl.
  - split; [apply lookup_insert_eq|].
    intros a Ha. by apply lookup_insert_ne.
  - done.
Qed.

(** X3. Acks that an execution sends while it is being reset leave no
    trace: whatever series of [send_ack] calls falls between the reset and
    the deletion of the ack, the teardown ends in the state of the teardown
    without them, with the entry erased and no ack stored for
    (server_id, recorded contract id). *)
Theorem teardown_drops_late_acks acks s key d :
  executions s !! key = Some d →
  ∃ s' t,
    teardown_with_acks key acks s = Some ((), s', t) ∧
    run_state (teardown key) s = Some s' ∧
    executions s' = delete key (executions s) ∧
    ack_map s' = delete (server_id, contract_id d) (ack_map s).
Proof.
  intros Hk. unfold teardown_with_acks.
  erewrite (exec_bind_run get_state); [|done]. simpl. rewrite Hk.
  erewrite exec_bind_run; [|by apply reset_execution_run].
  set (s1 := set_executions _ s).
  assert (executions s1 !! key = Some (set_execution None d)) as Hk1
    by apply lookup_insert_eq.
  destruct (send_acks_run acks s1 key _ Hk1) as [t Ht].
  erewrite exec_bind_run; [|exact Ht].
  erewrite exec_bind_run; [|by eapply delete_ack_of_run].
  rewrite erase_execution_run. simpl.
  unfold run_state. rewrite (teardown_run _ _ _ Hk). simpl.
  eexists _, _. split; [done|].
  assert (delete (server_id, contract_id d)
            (match last_ack_for (contract_id d) acks with
             | Some ack => <[(server_id, contract_id d) := ack]> (ack_map s)
             | None => ack_map s
             end) = delete (server_id, contract_id d) (ack_map s)) as Hdel.
  { destruct (last_ack_for _ _); [apply delete_insert_eq|done]. }
  unfold set_executions, set_ack_map. simpl.
  rewrite Hdel, delete_insert_eq. done.
Qed.

(** ** The shape of a pass *)

Lemma update_blocking_shape contracts s x s' t :
  update_blocking contracts s = Some (x, s', t) →
  ∃ s1 t1 t2,
    update_loop_run contracts s s1 t1 ∧ t = t1 ++ t2 ∧
    t2 = (if decide (dom (executions s1) ⊆ wanted_keys contracts) then []
          else teardown_log s1
                 (iteration_order
                    (filter (λ k, k ∉ wanted_keys contracts)
                            (dom (executions s1)))) ++ [EvNotify]) ∧
    (∀ k, executions s' !! k =
          if decide (k ∈ wanted_keys contracts) then executions s1 !! k
          else None) ∧
    (∀ a, ack_map s' !! a = None ∨ ack_map s' !! a = ack_map s1 !! a) ∧
    (∀ k d, k ∉ wanted_keys contracts → executions s1 !! k = Some d →
            ack_map s' !! (server_id, contract_id d) = None) ∧
    perfmon_counter s' = perfmon_counter s1.
Proof.
  intros Hub.
  destruct (update_blocking_inv _ _ _ _ _ Hub) as (s1 & t1 & _ & Hrun & _ & _).
  destruct (update_blocking_run _ _ _ _ Hrun)
    as (s2 & t2 & Hub2 & Ht2 & Hex & Hack & Hgone & _ & Hpc).
  rewrite Hub in Hub2. injection Hub2 as _ -> ->.
  by exists s1, t1, t2.
Qed.

Lemma update_loop_run_preserves (P : state_t → Prop) contracts s s' t :
  (∀ s new_pair s' t, update_pair_case s new_pair s' t → P s → P s') →
  update_loop_run contracts s s' t → P s → P s'.
Proof. intros Hstep. induction 1; eauto. Qed.

Lemma created_keys_teardown_log s keys : created_keys (teardown_log s keys) = [].
Proof.
  induction keys as [|key keys IH]; [done|].
  change (key :: keys) with ([key] ++ keys).
  rewrite teardown_log_app, created_keys_app, IH, app_nil_r.
  unfold teardown_log. simpl. by destruct (executions s !! key).
Qed.

(** ** What every action keeps *)

Lemma update_pair_case_entries s new_pair s' t :
  update_pair_case s new_pair s' t →
  entries_match_keys s → entries_match_keys s'.
Proof.
  destruct 1 as [d Hk Hc|d e Hk Hc He|Hk Hok|Hk Hok]; intros Hinv; try done.
  - destruct (Hinv _ _ Hk) as (Hst & Hpm & Hex). destruct (Hex e He) as [Hro Hre].
    intros k d' Hd'. simpl in Hd'.
    apply lookup_insert_Some in Hd' as [[<- <-]|[_ Hd']]; [|by apply Hinv].
    simpl. split_and!; [done | done |]. by intros e' [= <-].
  - intros k d' Hd'. simpl in Hd'.
    apply lookup_insert_Some in Hd' as [[<- <-]|[_ Hd']]; [|by apply Hinv].
    simpl. split_and!; [done | done |]. by intros e' [= <-].
Qed.

Lemma update_pair_case_ackers s new_pair s' t :
  update_pair_case s new_pair s' t → ackers_bound s → ackers_bound s'.
Proof.
  destruct 1 as [d Hk Hc|d e Hk Hc He|Hk Hok|Hk Hok]; intros Hinv; try done.
  - intros k d' e' Hd' He'. simpl in Hd'.
    apply lookup_insert_Some in Hd' as [[<- <-]|[_ Hd']]; [|by eapply Hinv].
    simpl in He'. by injection He' as <-.
  - intros k d' e' Hd' He'. simpl in Hd'.
    apply lookup_insert_Some in Hd' as [[<- <-]|[_ Hd']]; [|by eapply Hinv].
    simpl in He'. by injection He' as <-.
Qed.

Lemma update_pair_case_acks_backed s new_pair s' t :
  update_pair_case s new_pair s' t → acks_backed s → acks_backed s'.
Proof.
  destruct 1 as [d Hk Hc|d e Hk Hc He|Hk Hok|Hk Hok]; intros Hinv; try done.
  - intros a Ha. simpl in Ha.
    destruct (decide (a = (server_id, contract_id d))) as [->|Hne].
    { rewrite lookup_delete_eq in Ha. by destruct Ha. }
    rewrite lookup_delete_ne in Ha by done.
    destruct (Hinv a Ha) as (Hsid & k0 & d0 & Hd0 & Hc0).
    split; [done|]. exists k0, d0. split; [|done]. simpl.
    rewrite lookup_insert_ne; [done|]. intros <-.
    apply Hne. destruct a as [a1 a2]. simpl in *. congruence.
  - intros a Ha. simpl in Ha.
    destruct (Hinv a Ha) as (Hsid & k0 & d0 & Hd0 & Hc0).
    split; [done|]. exists k0, d0. split; [|done]. simpl.
    rewrite lookup_insert_ne; [done|]. congruence.
Qed.

Lemma update_pair_case_well_formed s new_pair s' t :
  update_pair_case s new_pair s' t → well_formed s → well_formed s'.
Proof.
  intros Hcase (H1 & H2 & H3 & H4).
  split_and!;
    eauto using update_pair_case_handles_live, update_pair_case_entries,
      update_pair_case_ackers, update_pair_case_acks_backed.
Qed.

Lemma well_formed_empty : well_formed (empty_state : state_t).
Proof.
  unfold well_formed, handles_live, entries_match_keys, ackers_bound,
    acks_backed, empty_state. simpl.
  split_and!.
  - intros k d Hd. by rewrite lookup_empty in Hd.
  - intros k d Hd. by rewrite lookup_empty in Hd.
  - intros k d e Hd. by rewrite lookup_empty in Hd.
  - intros a [ack Ha]. by rewrite lookup_empty in Ha.
Qed.

Lemma pass_well_formed contracts s x s' t :
  update_blocking contracts s = Some (x, s', t) →
  well_formed s → well_formed s'.
Proof.
  intros (s1 & t1 & t2 & Hrun & _ & _ & Hex & Hack & Hgone & Hpc)
    %update_blocking_shape Hwf.
  assert (well_formed s1) as (H1 & H2 & H3 & H4).
  { eapply (update_loop_run_preserves well_formed); [|done..].
    intros ????. apply update_pair_case_well_formed. }
  assert (∀ k d, executions s' !! k = Some d → executions s1 !! k = Some d)
    as Hsub.
  { intros k d Hd. rewrite Hex in Hd. by case_decide. }
  split_and!.
  - intros k d Hd%Hsub. by eapply H1.
  - intros k d Hd%Hsub. by eapply H2.
  - intros k d e Hd%Hsub. by eapply H3.
  - intros a Ha. destruct (Hack a) as [Hn|Heq].
    { rewrite Hn in Ha. by destruct Ha. }
    rewrite Heq in Ha. destruct (H4 a Ha) as (Hsid & k & d & Hd & Hc).
    split; [done|].
    destruct (decide (k ∈ wanted_keys contracts)) as [Hw|Hw].
    + exists k, d. split; [|done]. rewrite Hex. by rewrite decide_True.
    + exfalso. pose proof (Hgone k d Hw Hd) as Hnone.
      destruct a as [a1 a2]. simpl in *. subst a1 a2.
      rewrite Heq in Hnone. rewrite Hnone in Ha. by destruct Ha.
Qed.

Lemma send_ack_inv s key cid ack x s' t :
  send_ack key cid ack s = Some (x, s', t) →
  ∃ d, executions s !! key = Some d ∧
       ((contract_id d = cid ∧
         s' = set_ack_map (<[(server_id, cid) := ack]> (ack_map s)) s ∧
         t = [EvAckSet (server_id, cid) ack]) ∨
        (contract_id d ≠ cid ∧ s' = s ∧ t = [])).
Proof.
  destruct (executions s !! key) as [d|] eqn:Hk.
  - intros Hrun. exists d. split; [done|].
    destruct (decide (contract_id d = cid)) as [Hc|Hc].
    + rewrite (send_ack_current _ _ _ _ d) in Hrun by done.
      injection Hrun as _ <- <-. by left.
    + rewrite (send_ack_stale _ _ _ _ d) in Hrun by done.
      injection Hrun as _ <- <-. by right.
  - by rewrite send_ack_absent.
Qed.

Lemma send_ack_well_formed s key cid ack x s' t :
  send_ack key cid ack s = Some (x, s', t) →
  well_formed s → well_formed s'.
Proof.
  intros (d & Hk & [(Hc & -> & _)|(_ & -> & _)])%send_ack_inv; [|done].
  intros (H1 & H2 & H3 & H4). split_and!; try done.
  intros a Ha. simpl in Ha.
  destruct (decide (a = (server_id, cid))) as [->|Hne].
  - split; [done|]. by exists key, d.
  - rewrite lookup_insert_ne in Ha by done. by apply H4.
Qed.

Lemma do_actions_inv a rest s x s' t :
  do_actions (a :: rest) s = Some (x, s', t) →
  ∃ s1 t1 t2, do_action a s = Some ((), s1, t1) ∧
              do_actions rest s1 = Some (x, s', t2) ∧ t = t1 ++ t2.
Proof.
  simpl. intros ([] & s1 & t1 & t2 & Ha & Hrest & ->)%exec_bind_Some.
  by exists s1, t1, t2.
Qed.

Lemma do_actions_well_formed actions s x s' t :
  do_actions actions s = Some (x, s', t) → well_formed s → well_formed s'.
Proof.
  revert s t. induction actions as [|a rest IH]; intros s t.
  - by intros [= _ <- _].
  - intros (s1 & t1 & t2 & Ha & Hrest & ->)%do_actions_inv Hwf.
    eapply IH; [done|]. destruct a as [contracts|key cid ack]; simpl in Ha.
    + by eapply pass_well_formed.
    + by eapply send_ack_well_formed.
Qed.

(** ** Counting creations *)

Lemma int_incr_succ n : (n < int_max)%Z → int_incr n = (n + 1)%Z.
Proof. intros Hn. unfold int_incr. rewrite decide_False; lia. Qed.

Lemma update_pair_case_perfmon s new_pair s' t :
  update_pair_case s new_pair s' t →
  (perfmon_counter s + Z.of_nat (length (created_keys t)) ≤ int_max)%Z →
  perfmon_unique s →
  perfmon_unique s' ∧
  perfmon_counter s' =
    (perfmon_counter s + Z.of_nat (length (created_keys t)))%Z.
Proof.
  destruct 1 as [d Hk Hc|d e Hk Hc He|Hk Hok|Hk Hok];
    intros Hmax (Hpos & Hbound & Huniq);
    try (split; [done|simpl; lia]).
  - split; [|simpl; lia].
    assert (∀ k d', executions
              (swapped s (get_contract_key new_pair.2) d e new_pair) !! k
              = Some d' →
            ∃ d0, executions s !! k = Some d0 ∧
                  perfmon_name d' = perfmon_name d0) as Hold.
    { intros k d' Hd'. simpl in Hd'.
      apply lookup_insert_Some in Hd' as [[<- <-]|[_ Hd']]; eauto. }
    split_and!; [done | |].
    + intros k d' (d0 & Hd0 & ->)%Hold. by eapply Hbound.
    + intros k1 k2 d1 d2 (d01 & Hd01 & ->)%Hold (d02 & Hd02 & ->)%Hold.
      by eapply Huniq.
  - simpl in Hmax.
    assert (int_incr (perfmon_counter s) = (perfmon_counter s + 1)%Z) as Hincr
      by (apply int_incr_succ; lia).
    assert (∀ k d', executions
              (created s (get_contract_key new_pair.2) new_pair) !! k
              = Some d' →
            (k = get_contract_key new_pair.2 ∧
             (perfmon_name d').2 = (perfmon_counter s + 1)%Z) ∨
            (executions s !! k = Some d' ∧
             (0 < (perfmon_name d').2 ≤ perfmon_counter s)%Z)) as Hcases.
    { intros k d' Hd'. simpl in Hd'.
      apply lookup_insert_Some in Hd' as [[<- <-]|[_ Hd']]; [by left|].
      right. split; [done|]. by eapply Hbound. }
    split; [|simpl; lia].
    split_and!.
    + simpl. lia.
    + intros k d' [[_ Hn]|[_ Hn]]%Hcases; simpl; lia.
    + intros k1 k2 d1 d2 [[-> Hn1]|[Hd1 Hn1]]%Hcases
        [[-> Hn2]|[Hd2 Hn2]]%Hcases Heq; try done; try lia.
      by eapply Huniq.
Qed.

Lemma update_loop_run_perfmon contracts s s' t :
  update_loop_run contracts s s' t →
  (perfmon_counter s + Z.of_nat (length (created_keys t)) ≤ int_max)%Z →
  perfmon_unique s →
  perfmon_unique s' ∧
  perfmon_counter s' =
    (perfmon_counter s + Z.of_nat (length (created_keys t)))%Z.
Proof.
  induction 1 as [s|new_pair rest s s1 t1 s2 t2 Hcase Hrun IH].
  - intros _ Hs. split; [done|]. simpl. lia.
  - rewrite created_keys_app, length_app, Nat2Z.inj_add. intros Hmax Hs.
    destruct (update_pair_case_perfmon _ _ _ _ Hcase) as [Hs1 Hc1];
      [lia | done |].
    destruct IH as [Hs2 Hc2]; [lia | done |].
    split; [done|lia].
Qed.

Lemma do_action_perfmon a s x s' t :
  do_action a s = Some (x, s', t) →
  (perfmon_counter s + Z.of_nat (length (created_keys t)) ≤ int_max)%Z →
  perfmon_unique s →
  perfmon_unique s' ∧
  perfmon_counter s' =
    (perfmon_counter s + Z.of_nat (length (created_keys t)))%Z.
Proof.
  destruct a as [contracts|key cid ack]; simpl; intros Ha.
  - apply update_blocking_shape in Ha
      as (s1 & t1 & t2 & Hrun & -> & Ht2 & Hex & _ & _ & Hpc).
    assert (created_keys (t1 ++ t2) = created_keys t1) as ->.
    { rewrite created_keys_app, Ht2. clear Ht2.
      destruct (decide (dom (executions s1) ⊆ wanted_keys contracts));
        [by rewrite app_nil_r|].
      rewrite created_keys_app, created_keys_teardown_log. simpl.
      by rewrite app_nil_r. }
    intros Hmax Hs.
    destruct (update_loop_run_perfmon _ _ _ _ Hrun Hmax Hs)
      as [(Hpos & Hbound & Huniq) Hc1].
    assert (∀ k d, executions s' !! k = Some d → executions s1 !! k = Some d)
      as Hsub.
    { intros k d Hd. rewrite Hex in Hd.
      by destruct (decide (k ∈ wanted_keys contracts)). }
    split; [|by rewrite Hpc].
    split_and!.
    + by rewrite Hpc.
    + intros k d Hd%Hsub. rewrite Hpc. by eapply Hbound.
    + intros k1 k2 d1 d2 Hd1%Hsub Hd2%Hsub. by eapply Huniq.
  - apply send_ack_inv in Ha
      as (d & _ & [(_ & -> & ->)|(_ & -> & ->)]); simpl;
      intros _ Hs; (split; [done|lia]).
Qed.

Lemma do_actions_perfmon actions s x s' t :
  do_actions actions s = Some (x, s', t) →
  (perfmon_counter s + Z.of_nat (length (created_keys t)) ≤ int_max)%Z →
  perfmon_unique s →
  perfmon_unique s' ∧
  perfmon_counter s' =
    (perfmon_counter s + Z.of_nat (length (created_keys t)))%Z.
Proof.
  revert s t. induction actions as [|a rest IH]; intros s t.
  - intros [= _ <- <-] _ Hs. split; [done|]. simpl. lia.
  - intros (s1 & t1 & t2 & Ha & Hrest & ->)%do_actions_inv.
    rewrite created_keys_app, length_app, Nat2Z.inj_add. intros Hmax Hs.
    destruct (do_action_perfmon _ _ _ _ _ Ha) as [Hs1 Hc1]; [lia | done |].
    destruct (IH _ _ Hrest) as [Hs2 Hc2]; [lia | done |].
    split; [done|lia].
Qed.

Lemma perfmon_unique_empty : perfmon_unique (empty_state : state_t).
Proof.
  unfold perfmon_unique, empty_state. simpl. split_and!.
  - done.
  - intros k d Hd. by rewrite lookup_empty in Hd.
  - intros k1 k2 d1 d2 Hd. by rewrite lookup_empty in Hd.
Qed.

(** ** Passes and the ack map *)





(** X5. [update] hands its keys over untouched: the result contains what
    [*to_delete_out] held, and every key it adds has an entry that is
    exactly the entry the key had before the call, with the same recorded
    contract id and the same execution. *)
Theorem update_leaves_unwanted_entries contracts to_delete_out s r s' t :
  update contracts to_delete_out s = Some (r, s', t) →
  to_delete_out ⊆ r ∧
  ∀ k, k ∈ r → k ∉ to_delete_out →
       is_Some (executions s !! k) ∧ executions s' !! k = executions s !! k.
Proof.
  intros [Hrun ->]%update_inv. split; [set_solver|].
  intros k [Hk|[Hnw Hk]%elem_of_filter]%elem_of_union Hnot; [done|].
  rewrite <- (update_loop_run_untouched _ _ _ _ _ Hrun Hnw).
  split; [|done]. by apply elem_of_dom.
Qed.

(** X6. With an empty mapping a pass tears every execution down: it
    succeeds in any state, leaves [executions] empty, deletes the ack of
    every recorded contract id and notifies the pumper; on an executor
    without executions it does nothing and does not notify. *)
Theorem empty_mapping_tears_down_all s :
  ∃ s' t,
    update_blocking [] s = Some ((), s', t) ∧
    executions s' = ∅ ∧
    (executions s = ∅ → s' = s ∧ t = []) ∧
    (executions s ≠ ∅ →
       t = teardown_log s (iteration_order (dom (executions s))) ++
           [EvNotify]) ∧
    (∀ k d, executions s !! k = Some d →
            ack_map s' !! (server_id, contract_id d) = None) ∧
    perfmon_counter s' = perfmon_counter s.
Proof.
  destruct (update_blocking_run [] s s [] (run_nil s))
    as (s' & t & Hub & Ht & Hex & _ & Hgone & Hsame & Hpc).
  assert (wanted_keys [] = (∅ : gset key_t)) as Hw by done.
  rewrite Hw in *.
  match type of Ht with
  | context [iteration_order ?D] => assert (D = dom (executions s)) as Hall
  end.
  { apply set_eq. intros k. rewrite elem_of_filter. set_solver. }
  rewrite Hall in Ht.
  exists s', t. split_and!.
  - done.
  - apply map_eq. intros k. rewrite Hex, lookup_empty. by case_decide.
  - intros Hempty. rewrite decide_True in Ht
      by (rewrite Hempty, dom_empty_L; set_solver).
    split; [|done]. apply Hsame. rewrite Hempty, dom_empty_L. set_solver.
  - intros Hne. rewrite decide_False in Ht; [done|].
    intros Hsub. apply Hne. apply dom_empty_iff_L. set_solver.
  - intros k d Hd. apply (Hgone k d); [apply not_elem_of_empty|done].
  - done.
Qed.

(** ** The executor in use *)

Lemma do_actions_preserve (P : state_t → Prop) actions s x s' t :
  (∀ a s s' t, a ∈ actions → do_action a s = Some ((), s', t) → P s → P s') →
  do_actions actions s = Some (x, s', t) → P s → P s'.
Proof.
  revert s t. induction actions as [|a rest IH]; intros s t Hstep.
  - by intros [= _ <- _].
  - intros (s1 & t1 & t2 & Ha & Hrest & ->)%do_actions_inv Hs.
    eapply IH; [|done|].
    + intros a' ? ? ? Hin. apply Hstep. set_solver.
    + eapply Hstep; [|done..]. set_solver.
Qed.

(** X7. An executor in use never fails in a pass: after any series of
    passes (each over any mapping) and acks that went through, every entry
    holds a running execution and [update_blocking] succeeds on any mapping:
    the [guarantee] holds and no empty handle is dereferenced. *)
Theorem passes_succeed_in_use actions s t contracts :
  do_actions actions empty_state = Some ((), s, t) →
  handles_live s ∧
  ∃ s' t', update_blocking contracts s = Some ((), s', t').
Proof.
  intros Hrun.
  destruct (do_actions_well_formed _ _ _ _ _ Hrun well_formed_empty)
    as (Hlive & _).
  split; [done|]. by apply update_blocking_total.
Qed.

(** X8. In an executor in use every entry is built for its key: the store
    subview is on the key's region, the perfmon membership carries the key's
    role, and the execution is of the key's role and on the key's region,
    also after any number of contract updates. *)
Theorem entries_match_keys_in_use actions s t :
  do_actions actions empty_state = Some ((), s, t) →
  ∀ key data, executions s !! key = Some data →
    store_subview data = key_region key ∧
    (perfmon_name data).1 = key_role key ∧
    ∃ e, execution data = Some e ∧
         exec_role e = key_role key ∧ exec_region e = key_region key.
Proof.
  intros Hrun key data Hk.
  destruct (do_actions_well_formed _ _ _ _ _ Hrun well_formed_empty)
    as (Hlive & Hmatch & _).
  destruct (Hmatch _ _ Hk) as (Hst & Hpm & Hex).
  destruct (Hlive _ _ Hk) as [e He].
  split_and!; [done | done |]. exists e. split; [done|]. by apply Hex.
Qed.

(** X9. In an executor in use the acker that an execution was last given
    binds the execution's own key and the contract id recorded for it;
    an ack sent through it is never refused and never dropped: it is stored
    under (server_id, recorded contract id). *)
Theorem current_acker_accepted actions s t key data e ack :
  do_actions actions empty_state = Some ((), s, t) →
  executions s !! key = Some data → execution data = Some e →
  exec_acker e = (key, contract_id data) ∧
  send_ack (exec_acker e).1 (exec_acker e).2 ack s =
    Some ((),
          set_ack_map (<[(server_id, contract_id data) := ack]> (ack_map s)) s,
          [EvAckSet (server_id, contract_id data) ack]).
Proof.
  intros Hrun Hk He.
  destruct (do_actions_well_formed _ _ _ _ _ Hrun well_formed_empty)
    as (_ & _ & Hbound & _).
  rewrite (Hbound _ _ _ Hk He). split; [done|]. simpl.
  by apply (send_ack_current _ _ _ _ data).
Qed.

(** X10. In an executor in use every ack of the map is stored under this
    server's id and under a contract id that an entry of [executions]
    records: no ack outlives the execution that sent it or the contract it
    was sent for. *)
Theorem acks_backed_in_use actions s t a ack :
  do_actions actions empty_state = Some ((), s, t) →
  ack_map s !! a = Some ack →
  a.1 = server_id ∧
  ∃ key data, executions s !! key = Some data ∧ contract_id data = a.2.
Proof.
  intros Hrun Ha.
  destruct (do_actions_well_formed _ _ _ _ _ Hrun well_formed_empty)
    as (_ & _ & _ & Hbacked).
  apply Hbacked. by eexists.
Qed.

(** X11. The perfmon names are unique as long as the counter has not
    overflowed.  [perfmon_counter] is an [int] that starts at 0 and is
    incremented for every execution created; in an executor in use that
    has created at most [int_max] executions, the counter is the number of
    executions created so far, every entry carries a number between 1 and
    the counter, and two different entries carry different numbers, hence
    different names. *)
Theorem perfmon_names_unique_in_use actions s t :
  do_actions actions empty_state = Some ((), s, t) →
  (Z.of_nat (length (created_keys t)) ≤ int_max)%Z →
  perfmon_counter s = Z.of_nat (length (created_keys t)) ∧
  (∀ key data, executions s !! key = Some data →
     (1 ≤ (perfmon_name data).2 ≤ perfmon_counter s)%Z) ∧
  (∀ k1 k2 d1 d2,
     executions s !! k1 = Some d1 → executions s !! k2 = Some d2 →
     k1 ≠ k2 →
     (perfmon_name d1).2 ≠ (perfmon_name d2).2 ∧
     perfmon_name d1 ≠ perfmon_name d2).
Proof.
  intros Hrun Hmax.
  destruct (do_actions_perfmon _ _ _ _ _ Hrun) as [(_ & Hbound & Huniq) Hc];
    [done | apply perfmon_unique_empty |].
  simpl in Hc. rewrite Z.add_0_l in Hc.
  split_and!.
  - done.
  - intros key data Hk. specialize (Hbound _ _ Hk). lia.
  - intros k1 k2 d1 d2 Hd1 Hd2 Hne.
    assert ((perfmon_name d1).2 ≠ (perfmon_name d2).2) as Hnum.
    { intros Heq. apply Hne. by eapply Huniq. }
    split; [done|]. intros Heq. apply Hnum. by rewrite Heq.
Qed.

(** ** One execution per contract id *)

(** After the loop of [update], an entry whose key some contract derives
    records the id of a contract of the mapping that derives this key. *)
Lemma update_loop_run_recorded contracts s s' t k d :
  update_loop_run contracts s s' t →
  k ∈ wanted_keys contracts → executions s' !! k = Some d →
  ∃ new_pair, new_pair ∈ contracts ∧
              get_contract_key new_pair.2 = k ∧ contract_id d = new_pair.1.
Proof.
  induction 1 as [s|new_pair rest s s1 t1 s2 t2 Hcase Hrun IH].
  - intros Hk. unfold wanted_keys in Hk. set_solver.
  - intros Hk Hd.
    destruct (decide (k ∈ wanted_keys rest)) as [Hrest|Hrest].
    { destruct (IH Hrest Hd) as (p & Hp & Hkey & Hc).
      exists p. split; [set_solver|done]. }
    assert (k = get_contract_key new_pair.2) as ->.
    { unfold wanted_keys in *. simpl in Hk. set_solver. }
    rewrite (update_loop_run_untouched _ _ _ _ _ Hrun Hrest) in Hd.
    exists new_pair. split; [set_solver|]. split; [done|].
    destruct Hcase as [d' Hk' Hc|d' e Hk' Hc He|Hk' Hok|Hk' Hok].
    + congruence.
    + simpl in Hd. rewrite lookup_insert_eq in Hd. by injection Hd as <-.
    + congruence.
    + simpl in Hd. rewrite lookup_insert_eq in Hd. by injection Hd as <-.
Qed.

Lemma NoDup_fst_eq {A B} (l : list (A * B)) (p1 p2 : A * B) :
  NoDup l.*1 → p1 ∈ l → p2 ∈ l → p1.1 = p2.1 → p1 = p2.
Proof.
  induction l as [|p l IH]; [set_solver|].
  rewrite fmap_cons. intros [Hnotin Hnd]%NoDup_cons.
  intros [->|H1]%elem_of_cons [->|H2]%elem_of_cons Heq; [done | | |by apply IH].
  - destruct Hnotin. rewrite Heq. by apply list_elem_of_fmap_2.
  - destruct Hnotin. rewrite <- Heq. by apply list_elem_of_fmap_2.
Qed.

Lemma pass_ids_distinct contracts s x s' t :
  NoDup contracts.*1 →
  update_blocking contracts s = Some (x, s', t) → ids_distinct s'.
Proof.
  intros Hnd (s1 & t1 & t2 & Hrun & _ & _ & Hex & _)%update_blocking_shape.
  assert (∀ k d, executions s' !! k = Some d →
            ∃ new_pair, new_pair ∈ contracts ∧
              get_contract_key new_pair.2 = k ∧ contract_id d = new_pair.1)
    as Hrec.
  { intros k d Hd. rewrite Hex in Hd. case_decide; [|done].
    by eapply update_loop_run_recorded. }
  intros k1 k2 d1 d2 (p1 & Hp1 & <- & Hc1)%Hrec (p2 & Hp2 & <- & Hc2)%Hrec Heq.
  rewrite (NoDup_fst_eq contracts p1 p2); [done..|congruence].
Qed.

(** X12. Between the passes of an executor in use no two executions
    record the same contract id, when no mapping holds a contract id twice
    (the mapping is a [std::map]): two executions never share an entry of
    the ack map. *)
Theorem ids_distinct_in_use actions s t :
  Forall well_keyed actions →
  do_actions actions empty_state = Some ((), s, t) →
  ∀ k1 k2 d1 d2,
    executions s !! k1 = Some d1 → executions s !! k2 = Some d2 →
    k1 ≠ k2 →
    (server_id, contract_id d1) ≠ (server_id, contract_id d2).
Proof.
  intros Hkeyed Hrun.
  assert (ids_distinct s) as Hdist.
  { eapply (do_actions_preserve ids_distinct); [|exact Hrun|].
    - intros a s0 s1 t1 Hin Ha Hs0.
      rewrite Forall_forall in Hkeyed. specialize (Hkeyed a Hin).
      destruct a as [contracts|key cid ack]; simpl in *.
      + by eapply pass_ids_distinct.
      + apply send_ack_inv in Ha
          as (d & _ & [(_ & -> & _)|(_ & -> & _)]); done.
    - intros k1 k2 d1 d2 Hd1. unfold empty_state in Hd1. simpl in Hd1.
      by rewrite lookup_empty in Hd1. }
  intros k1 k2 d1 d2 Hd1 Hd2 Hne [= Heq]. apply Hne. by eapply Hdist.
Qed.

(** ** A mapping without overlaps *)

(** X13. When the contracts of the mapping derive pairwise different keys
    and the regions of different contracts do not overlap, a blocked
    creation is only ever blocked by an execution that the pass tears down:
    from any state with running executions, two passes leave exactly one
    entry per contract, under the contract's key, recording the contract's
    id and holding a running execution. *)
Theorem disjoint_mapping_reconciled contracts s :
  handles_live s →
  NoDup ((λ new_pair, get_contract_key new_pair.2) <$> contracts) →
  (∀ p1 p2, p1 ∈ contracts → p2 ∈ contracts →
     get_contract_key p1.2 ≠ get_contract_key p2.2 →
     region_overlaps p1.2.1 p2.2.1 = false) →
  ∃ s2 t2,
    update_blocking_n 2 contracts s = Some ((), s2, t2) ∧
    dom (executions s2) = wanted_keys contracts ∧
    ∀ new_pair, new_pair ∈ contracts →
      ∃ d e, executions s2 !! get_contract_key new_pair.2 = Some d ∧
             contract_id d = new_pair.1 ∧ execution d = Some e.
Proof.
  intros Hlive Hnd Hdisj.
  destruct (pass_settles contracts s Hlive) as (s1 & t1 & Hub1 & Hlive1 & Hset1).
  destruct (update_loop_run_total contracts s1 Hlive1) as (s2 & t2 & Hrun2).
  destruct (pass_from_settled _ _ _ _ Hset1 Hrun2) as [Hub2 Hset2].
  pose proof (update_loop_run_saturated _ _ _ _ Hrun2) as Hsat2.
  pose proof (update_loop_run_handles_live _ _ _ _ Hrun2 Hlive1) as Hlive2.
  pose proof (update_loop_run_up_to_date _ _ _ _ Hrun2 Hnd) as Hup2.
  assert (∀ new_pair, new_pair ∈ contracts →
            get_contract_key new_pair.2 ∈ dom (executions s2)) as Hall.
  { intros p Hp. destruct (Hsat2 p Hp) as [|Hno]; [done|].
    apply ok_to_create_false in Hno as (k & Hk & Hov).
    destruct (decide (k = get_contract_key p.2)) as [->|Hne]; [done|].
    exfalso. pose proof (Hset2 k Hk) as Hw.
    apply elem_of_wanted_keys in Hw as (p' & Hp' & ->).
    rewrite key_region_get_contract_key in Hov.
    rewrite (Hdisj p' p Hp' Hp Hne) in Hov. done. }
  exists s2, (t1 ++ t2). split_and!.
  - simpl. erewrite exec_bind_run; [|exact Hub1].
    erewrite exec_bind_run; [|exact Hub2]. simpl. by rewrite app_nil_r.
  - apply set_eq. intros k. split; [apply Hset2|].
    intros (p & Hp & ->)%elem_of_wanted_keys. by apply Hall.
  - intros p Hp. pose proof (Hall p Hp) as [d Hd]%elem_of_dom.
    destruct (Hlive2 _ _ Hd) as [e He].
    exists d, e. split_and!; [done | by eapply Hup2 | done].
Qed.

(** ** The order of a teardown *)

Lemma run_state_bind {A B} (m : exec A) (f : A → exec B) s :
  run_state (m ≫= f) s =
    match m s with
    | Some (x, s1, _) => run_state (f x) s1
    | None => None
    end.
Proof.
  unfold run_state, mbind, exec_bind.
  destruct (m s) as [[[x s1] t1]|]; [|done].
  by destruct (f x s1) as [[[y s2] t2]|].
Qed.

Lemma teardown_twice_absent s key1 key2 d :
  executions s !! key1 = Some d → executions s !! key2 = None →
  run_state (teardown key1 ≫= λ _, teardown key2) s = None.
Proof.
  intros H1 H2. rewrite run_state_bind, (teardown_run _ _ _ H1).
  unfold run_state. rewrite teardown_absent; [done|]. simpl.
  destruct (decide (key1 = key2)) as [->|Hne].
  - apply lookup_delete_eq.
  - by rewrite lookup_delete_ne.
Qed.

Lemma teardown_swap s key1 key2 (rest : exec ()) :
  run_state (teardown key1 ≫= λ _, teardown key2 ≫= λ _, rest) s =
  run_state (teardown key2 ≫= λ _, teardown key1 ≫= λ _, rest) s.
Proof.
  destruct (decide (key1 = key2)) as [->|Hne]; [done|].
  rewrite !run_state_bind.
  destruct (executions s !! key1) as [d1|] eqn:H1,
           (executions s !! key2) as [d2|] eqn:H2.
  - rewrite (teardown_run _ _ _ H1), (teardown_run _ _ _ H2).
    rewrite !run_state_bind.
    erewrite (teardown_run _ key2 d2);
      [|by simpl; rewrite lookup_delete_ne].
    erewrite (teardown_run _ key1 d1);
      [|by simpl; rewrite lookup_delete_ne].
    unfold set_executions, set_ack_map. simpl.
    by rewrite (delete_delete (executions s)), (delete_delete (ack_map s)).
  - rewrite (teardown_run _ _ _ H1), (teardown_absent _ _ H2).
    rewrite run_state_bind, teardown_absent; [done|].
    simpl. by rewrite lookup_delete_ne.
  - rewrite (teardown_absent _ _ H1), (teardown_run _ _ _ H2).
    rewrite run_state_bind, teardown_absent; [done|].
    simpl. by rewrite lookup_delete_ne.
  - by rewrite (teardown_absent _ _ H1), (teardown_absent _ _ H2).
Qed.

(** X14. The order in which executions are torn down does not matter for
    the outcome: tearing down the same keys in two different orders ends in
    the same state, and one order fails exactly when the other does. *)
Theorem teardown_order_irrelevant keys1 keys2 s :
  keys1 ≡ₚ keys2 →
  run_state (teardown_loop keys1) s = run_state (teardown_loop keys2) s.
Proof.
  intros Hperm. revert s.
  induction Hperm as [|key keys1 keys2 _ IH|key1 key2 keys|? ? ? _ IH1 _ IH2];
    intros s.
  - done.
  - simpl. rewrite !run_state_bind.
    destruct (teardown key s) as [[[[] s1] t1]|]; [apply IH|done].
  - simpl. apply teardown_swap.
  - by rewrite IH1.
Qed.

(** ** Convergence *)














Lemma new_data_id s key new_pair :
  contract_id (new_data s key new_pair) = new_pair.1.
Proof. done. Qed.



(** ** The bound on the number of passes *)











(** ** Ack routing over histories *)






End executor_facts.

(** * The scenarios on server 1 *)

Local Open Scope N_scope.

Lemma interval_overlaps_sym (a b : interval) :
  region_overlaps a b = region_overlaps b a.
Proof.
  simpl. unfold interval_overlaps. repeat destruct (_ <? _)%N; reflexivity.
Qed.

(** A fresh executor that sees contract 9 creates the primary execution. *)
Example old_contracts_pass :
  update_blocking old_contracts (empty_state : node_state) =
    Some ((), state_old, [EvCreate (primary_key (iv 0 5)) 9 primary_here]).
Proof. vm_compute. reflexivity. Qed.

(** The three roles on one region. *)
Example get_contract_key_roles :
  get_contract_key (iv 0 5, primary_here) = primary_key (iv 0 5) ∧
  get_contract_key (iv 0 5, secondary_here) =
    {| key_region := iv 0 5; key_role := role_secondary;
       key_primary := 2; key_branch := 7 |} ∧
  get_contract_key (iv 0 5, elsewhere) =
    {| key_region := iv 0 5; key_role := role_erase;
       key_primary := nil_uuid; key_branch := nil_uuid |}.
Proof. split_and!; vm_compute; reflexivity. Qed.

(** After the handoff the old execution is torn down and, of the two new
    contracts, the one that did not overlap it has its execution. *)
Example handoff_pass :
  update_blocking handoff_contracts state_old =
    Some ((), state_after_handoff,
          [EvCreate (primary_key (iv 8 12)) 11 primary_here;
           EvReset (primary_key (iv 0 5));
           EvAckDelete (1, 9);
           EvErase (primary_key (iv 0 5));
           EvNotify]).
Proof. vm_compute. reflexivity. Qed.

(** Contract 12 replaces contract 9 for the same region and primary: the
    execution stays, is told of the new contract once, and the ack of
    contract 9 is deleted. *)
Example renewed_pass :
  update_blocking renewed_contracts state_old =
    Some ((), state_renewed,
          [EvUpdateContract (primary_key (iv 0 5)) primary_here
             (primary_key (iv 0 5), 12);
           EvAckDelete (1, 9)]).
Proof. vm_compute. reflexivity. Qed.

(** Server 1 is removed from the replicas of a region it is secondary for:
    the first pass tears the secondary execution down and creates nothing,
    the second pass creates the erase execution. *)
Example removed_from_replicas :
  run_log (update_blocking [(20, (iv 0 5, secondary_here))])
          (empty_state : node_state) =
    Some [EvCreate (get_contract_key (iv 0 5, secondary_here)) 20
            secondary_here] ∧
  (run_state (update_blocking [(20, (iv 0 5, secondary_here))])
             (empty_state : node_state)
     ≫= run_log (update_blocking_n 2%nat [(21, (iv 0 5, elsewhere))])) =
    Some [EvReset (get_contract_key (iv 0 5, secondary_here));
          EvAckDelete (1, 20);
          EvErase (get_contract_key (iv 0 5, secondary_here));
          EvNotify;
          EvCreate (get_contract_key (iv 0 5, elsewhere)) 21 elsewhere].
Proof. split_and!; vm_compute; reflexivity. Qed.

(** When the counter is at [int_max], the execution created next gets the
    number [int_min]: its perfmon name is primary--2147483648. *)
Example perfmon_counter_wraps :
  run_state (update_pair (10, (iv 0 5, primary_here)))
            ({| executions := ∅; ack_map := ∅;
                perfmon_counter := int_max |} : node_state) =
    Some {| executions :=
              {[ primary_key (iv 0 5) :=
                   primary_data 10 (iv 0 5) (-2147483648) 10 ]};
            ack_map := ∅;
            perfmon_counter := int_min |}.
Proof. vm_compute. reflexivity. Qed.

(** The chain length as a bound.  With nothing superseded one pass reaches
    the final state.  When server 1 is removed from the replicas of a
    region it is secondary for, the erase execution that contract 21 asks
    for supersedes the secondary execution: the chain length is 2, the
    first pass ends with no execution at all and the second pass creates
    the erase execution. *)
Example chain_length_passes :
  chain_length old_contracts (empty_state : node_state) = 1%nat ∧
  run_state (update_blocking_n 1%nat old_contracts)
            (empty_state : node_state) = Some state_old ∧
  (λ s : node_state, chain_length [(21, (iv 0 5, elsewhere))] s) <$>
    run_state (update_blocking [(20, (iv 0 5, secondary_here))])
              (empty_state : node_state) = Some 2%nat ∧
  (λ s : node_state, dom (executions s)) <$>
    (run_state (update_blocking [(20, (iv 0 5, secondary_here))])
               (empty_state : node_state)
       ≫= run_state (update_blocking_n 1%nat [(21, (iv 0 5, elsewhere))])) =
    Some ∅ ∧
  (λ s : node_state, dom (executions s)) <$>
    (run_state (update_blocking [(20, (iv 0 5, secondary_here))])
               (empty_state : node_state)
       ≫= run_state (update_blocking_n 2%nat [(21, (iv 0 5, elsewhere))])) =
    Some {[ get_contract_key (iv 0 5, elsewhere) ]}.
Proof. split_and!; vm_compute; reflexivity. Qed.

(** ** Counterexamples *)

(** C8 fails as stated: in the handoff the keys of contracts 10 and 11
    overlap and have no entry when the pass starts, yet the execution that
    the pass creates is the one of contract 11, the second in iteration
    order; contract 10, the first, is refused because its region overlaps
    the old execution's. *)
Lemma tie_break_counterexample :
  run_state (update_blocking old_contracts) (empty_state : node_state) =
    Some state_old ∧
  get_contract_key (iv 3 10, primary_here) = primary_key (iv 3 10) ∧
  get_contract_key (iv 8 12, primary_here) = primary_key (iv 8 12) ∧
  executions state_old !! primary_key (iv 3 10) = None ∧
  executions state_old !! primary_key (iv 8 12) = None ∧
  region_overlaps (key_region (primary_key (iv 3 10)))
                  (key_region (primary_key (iv 8 12))) = true ∧
  created_keys <$> run_log (update handoff_contracts ∅) state_old =
    Some [primary_key (iv 8 12)] ∧
  (executions <$> run_state (update handoff_contracts ∅) state_old)
    ≫= (.!! primary_key (iv 3 10)) = None.
Proof. split_and!; vm_compute; reflexivity. Qed.

(** C9 fails as stated: with no execution before the pass, the test
    against the keys present before the pass would accept the region of
    contract 11, but the loop refuses it, because it overlaps the execution
    created for contract 10 earlier in the same pass; only one execution is
    created. *)
Lemma overlap_guard_counterexample :
  region_overlaps (iv 0 5) (iv 3 8) = true ∧
  ok_to_create_before_pass (empty_state : node_state) (iv 3 8) = true ∧
  update_loop [(10, (iv 0 5, primary_here))] ∅ (empty_state : node_state) =
    Some ({[ primary_key (iv 0 5) ]}, state_first_created,
          [EvCreate (primary_key (iv 0 5)) 10 primary_here]) ∧
  ok_to_create (executions state_first_created) (iv 3 8) = false ∧
  update_pair (11, (iv 3 8, primary_here)) state_first_created =
    Some ((), state_first_created, []) ∧
  update_blocking overlapping_contracts (empty_state : node_state) =
    Some ((), state_first_created,
          [EvCreate (primary_key (iv 0 5)) 10 primary_here]).
Proof. split_and!; vm_compute; reflexivity. Qed.



(** ** Instances of the theorems *)

Lemma handles_live_state_old : handles_live state_old.
Proof. apply (bool_decide_unpack _). vm_compute. exact I. Qed.

(** The invariant on the handoff: it holds in the fresh executor, after the
    pass that creates the old execution and after the handoff pass, and
    contract 10 is refused while the old execution is there. *)
Lemma no_overlap_invariant_witness :
  (∀ a b : interval, region_overlaps a b = region_overlaps b a) ∧
  no_overlap (empty_state : node_state) ∧
  no_overlap state_old ∧
  no_overlap state_after_handoff ∧
  update_pair (10, (iv 3 10, primary_here)) state_old =
    Some ((), state_old, []).
Proof.
  destruct (no_overlap_invariant (contract_ack_t := nat)
              interval_overlaps_sym) as [Hempty Hstep].
  assert (no_overlap state_old) as Hold.
  { destruct (Hstep empty_state Hempty) as (_ & _ & _ & _ & Hpass & _).
    exact (Hpass old_contracts _ _ _ old_contracts_pass). }
  destruct (Hstep state_old Hold) as (_ & _ & _ & _ & Hpass & Hrefused).
  split; [exact interval_overlaps_sym|].
  split; [exact Hempty|].
  split; [exact Hold|].
  split.
  - exact (Hpass handoff_contracts _ _ _ handoff_pass).
  - apply (Hrefused (10, (iv 3 10, primary_here)) (primary_key (iv 0 5))).
    + vm_compute. reflexivity.
    + apply (bool_decide_unpack _). vm_compute. exact I.
    + vm_compute. reflexivity.
Defined.

(** The teardown of the old execution in the handoff. *)
Lemma teardown_ordering_witness :
  handles_live state_old ∧
  ∃ to_delete s1 t1 s2 t2,
    update handoff_contracts ∅ state_old = Some (to_delete, s1, t1) ∧
    update_blocking handoff_contracts state_old = Some ((), s2, t1 ++ t2) ∧
    (to_delete ≠ ∅ → ∃ t2', t2 = t2' ++ [EvNotify] ∧ EvNotify ∉ t2') ∧
    (∀ key, key ∈ to_delete →
       ∃ d ta tb,
         executions s1 !! key = Some d ∧
         t2 = ta ++ [EvReset key;
                     EvAckDelete (server_id, contract_id d);
                     EvErase key] ++ tb ∧
         executions s2 !! key = None ∧
         ack_map s2 !! (server_id, contract_id d) = None) ∧
    (∀ key, EvReset key ∈ t2 ∨ EvErase key ∈ t2 → key ∈ to_delete) ∧
    (∀ key, executions s2 !! key =
            if decide (key ∈ to_delete) then None else executions s1 !! key).
Proof.
  split; [exact handles_live_state_old|].
  destruct (teardown_ordering handoff_contracts state_old
              handles_live_state_old)
    as (to_delete & s1 & t1 & s2 & t2 & Hup & Hub & _ & _ & Hnotify & Hkeys
        & _ & Honly & _ & Hrest).
  exists to_delete, s1, t1, s2, t2.
  split; [exact Hup|]. split; [exact Hub|]. split; [exact Hnotify|].
  split; [|split; [exact Honly | exact Hrest]].
  intros key Hkey.
  destruct (Hkeys key Hkey) as (d & ta & tb & Hd & Ht2 & _ & _ & Hgone & Hack).
  exists d, ta, tb. auto.
Defined.



(** The deletion set of the handoff. *)
Lemma update_deletion_set_witness :
  handles_live state_old ∧
  ∃ to_delete s' t,
    update handoff_contracts ∅ state_old = Some (to_delete, s', t) ∧
    (∀ k, k ∈ to_delete ↔
          k ∈ dom (executions s') ∧
          ¬ ∃ new_pair, new_pair ∈ handoff_contracts ∧
                        k = get_contract_key new_pair.2) ∧
    (∀ k, k ∈ to_delete → k ∈ dom (executions state_old)) ∧
    dom (executions state_old) ⊆ dom (executions s') ∧
    Forall (λ ev, is_teardown_event ev = false) t.
Proof.
  split; [exact handles_live_state_old|].
  exact (update_deletion_set handoff_contracts state_old
           handles_live_state_old).
Defined.


(** Contracts 10 and 11 overlap; the fresh executor creates one execution
    for them, that of contract 10, which is examined first. *)
Lemma tie_break_one_creation_witness :
  (∀ a b : interval, region_overlaps a b = region_overlaps b a) ∧
  update_loop overlapping_contracts ∅ (empty_state : node_state) =
    Some (wanted_keys overlapping_contracts, state_first_created,
          [EvCreate (primary_key (iv 0 5)) 10 primary_here]) ∧
  region_overlaps (key_region (get_contract_key (iv 0 5, primary_here)))
                  (key_region (get_contract_key (iv 3 8, primary_here)))
    = true ∧
  (length (filter (λ k, k = get_contract_key (iv 0 5, primary_here) ∨
                        k = get_contract_key (iv 3 8, primary_here))
             (created_keys
                ([EvCreate (primary_key (iv 0 5)) 10 primary_here]
                 : list node_event)))
     ≤ 1)%nat ∧
  ¬ (get_contract_key (iv 0 5, primary_here)
       ∈ dom (executions state_first_created) ∧
     get_contract_key (iv 3 8, primary_here)
       ∈ dom (executions state_first_created)).
Proof.
  assert (update_loop overlapping_contracts ∅ (empty_state : node_state) =
    Some (wanted_keys overlapping_contracts, state_first_created,
          [EvCreate (primary_key (iv 0 5)) 10 primary_here])) as Hrun
    by (vm_compute; reflexivity).
  destruct (tie_break_one_creation overlapping_contracts ∅ empty_state
              _ _ _ (10, (iv 0 5, primary_here)) (11, (iv 3 8, primary_here))
              interval_overlaps_sym Hrun) as (Hone & Hboth & _).
  - unfold overlapping_contracts. repeat constructor.
  - unfold overlapping_contracts. repeat constructor.
  - apply (bool_decide_unpack _). vm_compute. exact I.
  - apply (bool_decide_unpack _). vm_compute. exact I.
  - vm_compute. reflexivity.
  - split; [exact interval_overlaps_sym|]. split; [exact Hrun|].
    split; [vm_compute; reflexivity|]. split; [exact Hone|].
    apply Hboth. discriminate.
Defined.

(** The overlap test for contract 11 sees the execution created for
    contract 10 earlier in the pass. *)
Lemma overlap_guard_sees_created_witness :
  update_loop [(10, (iv 0 5, primary_here))] ∅ (empty_state : node_state) =
    Some ({[ primary_key (iv 0 5) ]}, state_first_created,
          [EvCreate (primary_key (iv 0 5)) 10 primary_here]) ∧
  update_pair (11, (iv 3 8, primary_here)) state_first_created =
    Some ((), state_first_created, []) ∧
  dom (executions state_first_created) =
    dom (executions (empty_state : node_state)) ∪
    list_to_set (created_keys
                   ([EvCreate (primary_key (iv 0 5)) 10 primary_here]
                    : list node_event)).
Proof.
  assert (update_loop [(10, (iv 0 5, primary_here))] ∅
            (empty_state : node_state) =
    Some ({[ primary_key (iv 0 5) ]}, state_first_created,
          [EvCreate (primary_key (iv 0 5)) 10 primary_here])) as Hloop
    by (vm_compute; reflexivity).
  assert (update_pair (11, (iv 3 8, primary_here)) state_first_created =
    Some ((), state_first_created, [])) as Hpair
    by (vm_compute; reflexivity).
  split; [exact Hloop|]. split; [exact Hpair|].
  exact (proj1 (overlap_guard_sees_created _ _ _ _ _ _ _ _ _ _ Hloop Hpair)).
Defined.

(** ** Instances of the further properties *)

Example history_handoff_run :
  do_actions history_handoff (empty_state : node_state) =
    Some ((), state_after_handoff, log_handoff).
Proof. vm_compute. reflexivity. Qed.

Example history_acked_run :
  do_actions history_acked (empty_state : node_state) =
    Some ((), state_old_acked,
          [EvCreate (primary_key (iv 0 5)) 9 primary_here;
           EvAckSet (1, 9) 42%nat]).
Proof. vm_compute. reflexivity. Qed.

Example disjoint_contracts_run :
  do_actions [ActPass disjoint_contracts] (empty_state : node_state) =
    Some ((), state_two, log_two).
Proof. vm_compute. reflexivity. Qed.

Lemma state_old_entry :
  executions state_old !! primary_key (iv 0 5) =
    Some (primary_data 9 (iv 0 5) 1 9).
Proof. vm_compute. reflexivity. Qed.

(** Three acks for the old execution, the second one stale. *)
Lemma send_acks_last_write_wins_witness :
  executions state_old !! primary_key (iv 0 5) =
    Some (primary_data 9 (iv 0 5) 1 9) ∧
  ∃ s' t,
    send_acks (primary_key (iv 0 5))
      [(9, 1%nat); (7, 2%nat); (9, 3%nat)] state_old = Some ((), s', t) ∧
    executions s' = executions state_old ∧
    ack_map s' !! (1, 9) = Some 3%nat.
Proof.
  split; [exact state_old_entry|].
  destruct (send_acks_last_write_wins [(9, 1%nat); (7, 2%nat); (9, 3%nat)]
              state_old _ _ state_old_entry)
    as (s' & t & Hrun & Hex & Hack & _).
  exists s', t. split; [exact Hrun|]. split; [exact Hex|exact Hack].
Defined.

(** The old execution acks twice while it is being reset. *)
Lemma teardown_drops_late_acks_witness :
  executions state_old !! primary_key (iv 0 5) =
    Some (primary_data 9 (iv 0 5) 1 9) ∧
  ∃ s' t,
    teardown_with_acks (primary_key (iv 0 5)) [(9, 1%nat); (9, 2%nat)]
      state_old = Some ((), s', t) ∧
    run_state (teardown (primary_key (iv 0 5))) state_old = Some s' ∧
    executions s' = delete (primary_key (iv 0 5)) (executions state_old) ∧
    ack_map s' = delete (1, 9) (ack_map state_old).
Proof.
  split; [exact state_old_entry|].
  exact (teardown_drops_late_acks [(9, 1%nat); (9, 2%nat)]
           state_old _ _ state_old_entry).
Defined.


(** [update] in the handoff returns the old key with its entry as it was. *)
Lemma update_leaves_unwanted_entries_witness :
  update handoff_contracts ∅ state_old =
    Some ({[ primary_key (iv 0 5) ]}, state_mid_handoff,
          [EvCreate (primary_key (iv 8 12)) 11 primary_here]) ∧
  executions state_mid_handoff !! primary_key (iv 0 5) =
    executions state_old !! primary_key (iv 0 5).
Proof.
  assert (update handoff_contracts ∅ state_old =
    Some ({[ primary_key (iv 0 5) ]}, state_mid_handoff,
          [EvCreate (primary_key (iv 8 12)) 11 primary_here])) as Hrun
    by (vm_compute; reflexivity).
  split; [exact Hrun|].
  destruct (update_leaves_unwanted_entries _ _ _ _ _ _ Hrun) as [_ Hkeep].
  apply (Hkeep (primary_key (iv 0 5))).
  - apply elem_of_singleton. reflexivity.
  - apply not_elem_of_empty.
Defined.

(** After the handoff history a pass over the twin contracts succeeds. *)
Lemma passes_succeed_in_use_witness :
  do_actions history_handoff (empty_state : node_state) =
    Some ((), state_after_handoff, log_handoff) ∧
  handles_live state_after_handoff ∧
  ∃ s' t', update_blocking twin_contracts state_after_handoff =
             Some ((), s', t').
Proof.
  split; [exact history_handoff_run|].
  exact (passes_succeed_in_use _ _ _ twin_contracts history_handoff_run).
Defined.

(** The entry that remains after the handoff history. *)
Lemma entries_match_keys_in_use_witness :
  executions state_after_handoff !! primary_key (iv 8 12) =
    Some (primary_data 11 (iv 8 12) 2 11) ∧
  store_subview (primary_data 11 (iv 8 12) 2 11) = iv 8 12 ∧
  (perfmon_name (primary_data 11 (iv 8 12) 2 11)).1 = role_primary ∧
  ∃ e, execution (primary_data 11 (iv 8 12) 2 11) = Some e ∧
       exec_role e = role_primary ∧ exec_region e = iv 8 12.
Proof.
  assert (executions state_after_handoff !! primary_key (iv 8 12) =
            Some (primary_data 11 (iv 8 12) 2 11)) as Hk
    by (vm_compute; reflexivity).
  split; [exact Hk|].
  exact (entries_match_keys_in_use _ _ _ history_handoff_run _ _ Hk).
Defined.

(** The old execution acks through the acker it holds. *)
Lemma current_acker_accepted_witness :
  executions state_old_acked !! primary_key (iv 0 5) =
    Some (primary_data 9 (iv 0 5) 1 9) ∧
  send_ack (primary_key (iv 0 5)) 9 43%nat state_old_acked =
    Some ((),
          set_ack_map (<[(1, 9) := 43%nat]> (ack_map state_old_acked))
            state_old_acked,
          [EvAckSet (1, 9) 43%nat]).
Proof.
  assert (executions state_old_acked !! primary_key (iv 0 5) =
            Some (primary_data 9 (iv 0 5) 1 9)) as Hk
    by (vm_compute; reflexivity).
  split; [exact Hk|].
  exact (proj2 (current_acker_accepted _ _ _ _ _ _ 43%nat
                  history_acked_run Hk eq_refl)).
Defined.

(** The ack stored in the acked history belongs to the old execution. *)
Lemma acks_backed_in_use_witness :
  ack_map state_old_acked !! (1, 9) = Some 42%nat ∧
  ∃ key data, executions state_old_acked !! key = Some data ∧
              contract_id data = 9.
Proof.
  assert (ack_map state_old_acked !! (1, 9) = Some 42%nat) as Ha
    by (vm_compute; reflexivity).
  split; [exact Ha|].
  exact (proj2 (acks_backed_in_use _ _ _ _ _ history_acked_run Ha)).
Defined.

(** Two executions, numbered 1 and 2. *)
Lemma perfmon_names_unique_in_use_witness :
  do_actions [ActPass disjoint_contracts] (empty_state : node_state) =
    Some ((), state_two, log_two) ∧
  (Z.of_nat (length (created_keys log_two)) ≤ int_max)%Z ∧
  perfmon_counter state_two = Z.of_nat (length (created_keys log_two)) ∧
  perfmon_name (primary_data 10 (iv 0 5) 1 10) ≠
    perfmon_name (primary_data 12 (iv 8 12) 2 12).
Proof.
  split; [exact disjoint_contracts_run|].
  assert (Z.of_nat (length (created_keys log_two)) ≤ int_max)%Z as Hmax
    by (vm_compute; discriminate).
  split; [exact Hmax|].
  destruct (perfmon_names_unique_in_use _ _ _ disjoint_contracts_run Hmax)
    as (Hcount & _ & Huniq).
  split; [exact Hcount|].
  refine (proj2 (Huniq (primary_key (iv 0 5)) (primary_key (iv 8 12))
                   _ _ _ _ _)).
  - vm_compute. reflexivity.
  - vm_compute. reflexivity.
  - discriminate.
Defined.

(** Two executions, for contracts 10 and 12. *)
Lemma ids_distinct_in_use_witness :
  Forall well_keyed ([ActPass disjoint_contracts] : list node_action) ∧
  (1, contract_id (primary_data 10 (iv 0 5) 1 10)) ≠
    (1, contract_id (primary_data 12 (iv 8 12) 2 12)).
Proof.
  assert (Forall well_keyed ([ActPass disjoint_contracts] : list node_action))
    as Hkeyed.
  { constructor; [|constructor]. simpl.
    apply (bool_decide_unpack _). vm_compute. exact I. }
  split; [exact Hkeyed|].
  refine (ids_distinct_in_use _ _ _ Hkeyed disjoint_contracts_run
            (primary_key (iv 0 5)) (primary_key (iv 8 12)) _ _ _ _ _).
  - vm_compute. reflexivity.
  - vm_compute. reflexivity.
  - discriminate.
Defined.

(** Two disjoint contracts replace contract 9. *)
Lemma disjoint_mapping_reconciled_witness :
  handles_live state_old ∧
  NoDup ((λ new_pair, get_contract_key new_pair.2) <$> disjoint_contracts) ∧
  ∃ s2 t2,
    update_blocking_n 2 disjoint_contracts state_old = Some ((), s2, t2) ∧
    dom (executions s2) = wanted_keys disjoint_contracts.
Proof.
  assert (NoDup ((λ new_pair, get_contract_key new_pair.2)
                   <$> disjoint_contracts)) as Hnd
    by (apply (bool_decide_unpack _); vm_compute; exact I).
  split; [exact handles_live_state_old|]. split; [exact Hnd|].
  destruct (disjoint_mapping_reconciled disjoint_contracts state_old
              handles_live_state_old Hnd) as (s2 & t2 & Hrun & Hdom & _).
  - intros p1 p2 Hp1 Hp2 Hne. unfold disjoint_contracts in Hp1, Hp2.
    apply elem_of_cons in Hp1 as [->|Hp1];
      [|apply elem_of_cons in Hp1 as [->|Hp1];
        [|by apply elem_of_nil in Hp1]];
      (apply elem_of_cons in Hp2 as [->|Hp2];
        [|apply elem_of_cons in Hp2 as [->|Hp2];
          [|by apply elem_of_nil in Hp2]]);
      try (by destruct Hne); vm_compute; reflexivity.
  - exists s2, t2. split; [exact Hrun|exact Hdom].
Defined.

(** The two executions of [state_two], torn down in either order. *)
Lemma teardown_order_irrelevant_witness :
  [primary_key (iv 0 5); primary_key (iv 8 12)] ≡ₚ
    [primary_key (iv 8 12); primary_key (iv 0 5)] ∧
  run_state (teardown_loop [primary_key (iv 0 5); primary_key (iv 8 12)])
            state_two =
  run_state (teardown_loop [primary_key (iv 8 12); primary_key (iv 0 5)])
            state_two.
Proof.
  assert ([primary_key (iv 0 5); primary_key (iv 8 12)] ≡ₚ
            [primary_key (iv 8 12); primary_key (iv 0 5)]) as Hperm
    by apply perm_swap.
  split; [exact Hperm|].
  exact (teardown_order_irrelevant _ _ state_two Hperm).
Defined.
